(** * InverseKinematics.hpp: the IK optimisation problem of EigenRobotics

    A shallow embedding of [src/InverseKinematics.hpp] (namespace [RML]):
    the variable set [IKVariables], the example constraint [IKConstraint],
    the cost term [IKCost] with its static [cost] function, and the driver
    [inverse_kinematics].

    Scalars.  The C++ code is a template over [Scalar] and [AutoDiffType];
    the driver instantiates them with [double] and [autodiff::dual].  Here
    [Scalar] is an arbitrary real field [R] with exact arithmetic (rounding
    is not modelled), and [autodiff::dual] is the ring of first-order dual
    numbers over [R], built below.

    Matrices.  Eigen matrices are MathComp matrices: ['M[D]_(m, n)] with
    [*m] for the product, [^T] for [transpose()], [\tr] for
    [diagonal().sum()].  A dynamically sized vector ([VectorXd],
    [Eigen::Matrix<Scalar, Dynamic, 1>]) is a [seq]; where Eigen requires
    sizes to agree the embedding returns [None] when they do not. *)

Set Warnings "-notation-overridden,-ambiguous-paths,-deprecated".
Set Warnings "-redundant-canonical-projection".
From HB Require Import structures.
From Stdlib Require Import String.
From mathcomp Require Import boot order algebra ring_tactic.

Set Implicit Arguments.
Unset Strict Implicit.
Unset Printing Implicit Defensive.

Import GRing.Theory Num.Theory Order.TTheory.
Local Open Scope ring_scope.

(** ** autodiff::dual

    [autodiff::dual] is [Dual<double, double>]: a value [val] and a first
    derivative [grad].  (MathComp reserves the name [val], hence the
    prefixed projections.)  Sum and product are the usual ones of forward
    mode: derivatives add, and the product obeys the Leibniz rule. *)

Section DualNumbers.

Variable R : comNzRingType.

Record dual : Type := Dual { dual_val : R; dual_grad : R }.

Definition pair_of_dual (x : dual) : R * R := (dual_val x, dual_grad x).
Definition dual_of_pair (p : R * R) : dual := Dual p.1 p.2.

Lemma pair_of_dualK : cancel pair_of_dual dual_of_pair.
Proof. by case. Qed.

HB.instance Definition _ := Choice.copy dual (can_type pair_of_dualK).

Definition dual_zero : dual := Dual 0 0.
Definition dual_one : dual := Dual 1 0.
Definition dual_add (x y : dual) : dual :=
  Dual (dual_val x + dual_val y) (dual_grad x + dual_grad y).
Definition dual_opp (x : dual) : dual :=
  Dual (- dual_val x) (- dual_grad x).
Definition dual_mul (x y : dual) : dual :=
  Dual (dual_val x * dual_val y)
       (dual_val x * dual_grad y + dual_grad x * dual_val y).

Lemma dual_addA : associative dual_add.
Proof. by move=> [a b] [c d] [e f]; rewrite /dual_add /= !addrA. Qed.

Lemma dual_addC : commutative dual_add.
Proof.
by move=> [a b] [c d]; rewrite /dual_add /= [a + c]addrC [b + d]addrC.
Qed.

Lemma dual_add0 : left_id dual_zero dual_add.
Proof. by move=> [a b]; rewrite /dual_add /= !add0r. Qed.

Lemma dual_addN : left_inverse dual_zero dual_opp dual_add.
Proof. by move=> [a b]; rewrite /dual_add /dual_opp /= !addNr. Qed.

HB.instance Definition _ :=
  GRing.isZmodule.Build dual dual_addA dual_addC dual_add0 dual_addN.

Lemma dual_mulA : associative dual_mul.
Proof.
move=> [a b] [c d] [e f]; rewrite /dual_mul /=; congr Dual.
  by rewrite mulrA.
by rewrite mulrDr mulrDl !mulrA addrA.
Qed.

Lemma dual_mulC : commutative dual_mul.
Proof.
move=> [a b] [c d]; rewrite /dual_mul /=; congr Dual; first by rewrite mulrC.
by rewrite addrC [d * a]mulrC [c * b]mulrC.
Qed.

Lemma dual_mul1 : left_id dual_one dual_mul.
Proof. by move=> [a b]; rewrite /dual_mul /= !mul1r mul0r addr0. Qed.

Lemma dual_mulDl : left_distributive dual_mul dual_add.
Proof.
move=> [a b] [c d] [e f]; rewrite /dual_mul /dual_add /=; congr Dual.
  by rewrite mulrDl.
by rewrite !mulrDl addrACA.
Qed.

Lemma dual_one_neq0 : dual_one != dual_zero.
Proof. by apply/eqP => -[] /eqP; rewrite oner_eq0. Qed.

HB.instance Definition _ :=
  GRing.Zmodule_isComNzRing.Build dual
    dual_mulA dual_mulC dual_mul1 dual_mulDl dual_one_neq0.

(** The conversion of a plain scalar to a dual number (a constant: zero
    derivative).  Eigen applies it entrywise when a real matrix is
    assigned to, or combined with, a dual one. *)
Definition lift (a : R) : dual := Dual a 0.

(** [seed<1>(xi, 1.0)]: the derivative of entry [i] of [x] is set to one.
    An index past the end seeds nothing. *)
Definition seed (i : nat) (x : seq dual) : seq dual :=
  if (i < size x)%N then set_nth 0 x i (Dual (dual_val (nth 0 x i)) 1)
  else x.

(** [val] and [lift] are ring morphisms. *)

Lemma dual_val_is_zmod_morphism : zmod_morphism dual_val.
Proof. by move=> [a b] [c d]. Qed.

Lemma dual_val_is_monoid_morphism : monoid_morphism dual_val.
Proof. by split=> // -[a b] [c d]. Qed.

HB.instance Definition _ :=
  GRing.isZmodMorphism.Build dual R dual_val dual_val_is_zmod_morphism.
HB.instance Definition _ :=
  GRing.isMonoidMorphism.Build dual R dual_val dual_val_is_monoid_morphism.

Lemma lift_is_zmod_morphism : zmod_morphism lift.
Proof. by move=> a b; rewrite /lift -[RHS]/(Dual _ _) /= subr0. Qed.

Lemma lift_is_monoid_morphism : monoid_morphism lift.
Proof.
split=> // a b; rewrite /lift -[RHS]/(Dual _ _) /=.
by rewrite mulr0 mul0r addr0.
Qed.

HB.instance Definition _ :=
  GRing.isZmodMorphism.Build R dual lift lift_is_zmod_morphism.
HB.instance Definition _ :=
  GRing.isMonoidMorphism.Build R dual lift lift_is_monoid_morphism.

Lemma dual_val_lift (a : R) : dual_val (lift a) = a.
Proof. by []. Qed.

Lemma size_seed (i : nat) (x : seq dual) : size (seed i x) = size x.
Proof.
rewrite /seed; case: ifP => // ltix.
by rewrite size_set_nth; apply/maxn_idPr.
Qed.

End DualNumbers.

(** ** Eigen: dense and sparse matrices *)

Section Eigen.

Variable D : comNzRingType.

(** [A * s], a matrix times a scalar written on its right: every entry
    is multiplied by [s] on the right. *)
Definition scalemxr (m n : nat) (A : 'M[D]_(m, n)) (s : D) : 'M[D]_(m, n) :=
  \matrix_(i, j) (A i j * s).

(** A dynamically sized vector that is known to have [n] entries, read as
    an [n x 1] matrix. *)
Definition vec_of_seq (n : nat) (x : seq D) : 'cV[D]_n :=
  \col_(i < n) nth 0 x i.

(** [x(i)] on a dynamic vector: defined inside the vector only. *)
Definition vec_get (x : seq D) (i : nat) : option D :=
  if (i < size x)%N then Some (nth 0 x i) else None.

(** [x(i) = a] (and [std::vector::at(i) = a]) on a vector of any element
    type: defined inside the vector only. *)
Definition vec_set (T : Type) (x : seq T) (i : nat) (a : T) : option (seq T) :=
  if (i < size x)%N then Some (set_nth a x i a) else None.

(** [x.resize(n)] on a dynamic vector: [n] entries whose contents Eigen
    leaves unspecified (zeros here). *)
Definition vec_resize (n : nat) (x : seq D) : seq D := nseq n 0.

(** [x = y] on dynamic vectors: the destination takes the size and the
    entries of the source. *)
Definition vec_assign (x y : seq D) : seq D := y.

(** A dense [Eigen::Matrix<Scalar, Dynamic, Dynamic>], as the list of its
    rows. *)
Definition MatrixX : Type := seq (seq D).

Definition mat_rows (J : MatrixX) : nat := size J.
Definition mat_cols (J : MatrixX) : nat := size (head [::] J).

(** [J(i, j)]: defined inside the matrix only. *)
Definition mat_get (J : MatrixX) (i j : nat) : option D :=
  if (i < mat_rows J)%N then vec_get (nth [::] J i) j else None.

(** [Eigen::SparseMatrix]: its dimensions and the stored entries, at most
    one per position. *)
Record SparseMatrix : Type := mkSparse {
  sp_rows : nat;
  sp_cols : nat;
  sp_entries : seq ((nat * nat) * D)
}.

(** [A.coeff(i, j)]: the stored entry, zero where none is stored. *)
Definition coeff (A : SparseMatrix) (i j : nat) : D :=
  if [seq e <- sp_entries A | e.1 == (i, j)] is e :: _ then e.2 else 0.

(** [A.coeffRef(i, j) = a]: the entry is stored, replacing an earlier one;
    defined inside the matrix only. *)
Definition coeffRef_set (A : SparseMatrix) (i j : nat) (a : D)
  : option SparseMatrix :=
  if (i < sp_rows A)%N && (j < sp_cols A)%N then
    Some (mkSparse (sp_rows A) (sp_cols A)
            (((i, j), a) :: [seq e <- sp_entries A | e.1 != (i, j)]))
  else None.

(** [A.resize(r, c)]: new dimensions, and no stored entry is kept. *)
Definition sp_resize (A : SparseMatrix) (r c : nat) : SparseMatrix :=
  mkSparse r c [::].

(** [Eigen::Transform<Scalar, 3, Eigen::Affine>], through its two
    accessors [linear()] and [translation()]. *)
Record Transform : Type := mkTransform {
  linear : 'M[D]_3;
  translation : 'cV[D]_3
}.

(** Lines 197-198 of [IKCost::cost]:
    [R_v_r = Rst_desired * Rst_current.transpose()] and
    [orientation_error = (Identity() - R_v_r).diagonal().sum()]. *)
Definition orientation_error (Rst_desired Rst_current : 'M[D]_3) : D :=
  let R_v_r := Rst_desired *m Rst_current^T in
  \tr (1%:M - R_v_r).

(** A 3D rotation matrix: orthogonal, of determinant one. *)
Definition is_rotation (A : 'M[D]_3) : bool :=
  (A *m A^T == 1%:M) && (\det A == 1).

End Eigen.

Notation "A *s a" := (scalemxr A a) (at level 40, left associativity)
  : ring_scope.

(** ** The IK problem *)

Section InverseKinematics.

(** [Scalar]: the plain real type ([double] in the driver). *)
Variable R : realFieldType.

(** [M_PI], the constant of [<cmath>]. *)
Variable M_PI : R.

(** [RobotModel<Scalar>] is declared in RobotModel.hpp, which is not part
    of the sources at hand.  The code below reads its member [n_q], casts
    a real model to a dual one ([model->template cast<autodiff::dual>()])
    and hands models to [forward_kinematics] (ForwardKinematics.hpp, not
    at hand either), which the specification describes as a pure function
    [forward_kinematics(model, q, source, target) -> Transform],
    polymorphic in the scalar type.  All four are parameters here. *)
Variable RobotModel : Type -> Type.
Variable n_q : forall S : Type, RobotModel S -> nat.
Variable cast : RobotModel R -> RobotModel (dual R).
Variable forward_kinematics :
  forall S : comNzRingType,
    RobotModel S -> seq S -> string -> string -> Transform S.

(** *** ifopt: bounds, components, the composite of variable sets *)

(** [ifopt::Bounds]; its default constructor gives [(0, 0)]. *)
Record Bounds : Type := mkBounds { lower_ : R; upper_ : R }.

Definition Bounds_default : Bounds := mkBounds 0 0.

(** [ifopt::Component::Jacobian], a sparse matrix of reals. *)
Definition Jacobian : Type := SparseMatrix R.

(** *** IKVariables (lines 31-80)

    The base class [VariableSet(_model->n_q, name)] keeps the number of
    rows and the name; the class itself keeps the configuration [q]. *)
Record IKVariables : Type := mkIKVariables {
  num_rows_ : nat;
  name_ : string;
  q : seq R
}.

Definition GetRows (v : IKVariables) : nat := num_rows_ v.
Definition GetName (v : IKVariables) : string := name_ v.

(** The constructor: [q.resize(_model->n_q); q = q0;]. *)
Definition IKVariables_new (name : string) (_model : RobotModel R)
    (q0 : seq R) : IKVariables :=
  let q1 := vec_resize (n_q _model) ([::] : seq R) in
  let q2 := vec_assign q1 q0 in
  mkIKVariables (n_q _model) name q2.

(** [SetVariables(qin)]: [q = qin;]. *)
Definition SetVariables (v : IKVariables) (qin : seq R) : IKVariables :=
  mkIKVariables (num_rows_ v) (name_ v) (vec_assign (q v) qin).

(** [GetValues()]: [return q;]. *)
Definition GetValues (v : IKVariables) : seq R := q v.

(** The loop of [GetBounds()], from index [i] for [k] more rounds:
    [bounds.at(i) = {-M_PI, M_PI}]. *)
Fixpoint GetBounds_loop (k i : nat) (bounds : seq Bounds)
  : option (seq Bounds) :=
  match k with
  | 0%N => Some bounds
  | k'.+1 =>
      if vec_set bounds i (mkBounds (- M_PI) M_PI) is Some bounds'
      then GetBounds_loop k' i.+1 bounds'
      else None
  end.

(** [GetBounds()]: [VecBound bounds(GetRows())], then the loop over
    [0 <= i < GetRows()].  [None] stands for the exception of [at]. *)
Definition GetBounds (v : IKVariables) : option (seq Bounds) :=
  GetBounds_loop (GetRows v) 0 (nseq (GetRows v) Bounds_default).

(** [ifopt::Composite]: the variable sets of a problem, in the order they
    were added. *)
Definition Composite : Type := seq IKVariables.

(** [Composite::GetComponent(name)]: the first component of that name;
    [None] stands for the failed assertion when there is none. *)
Fixpoint GetComponent (vars : Composite) (name : string)
  : option IKVariables :=
  match vars with
  | [::] => None
  | c :: vars' =>
      if String.eqb (GetName c) name then Some c
      else GetComponent vars' name
  end.

(** [Composite::GetValues()]: the values of all components, one after
    the other. *)
Definition Composite_GetValues (vars : Composite) : seq R :=
  flatten [seq GetValues c | c <- vars].

(** *** IKConstraint (lines 86-132)

    [ConstraintSet(1, name)]: one row. *)
Record IKConstraint : Type := mkIKConstraint {
  constraint_rows_ : nat;
  constraint_name_ : string
}.

Definition IKConstraint_new (name : string) : IKConstraint :=
  mkIKConstraint 1 name.

(** The default constructor: [IKConstraint() : IKConstraint("constraint1")]. *)
Definition IKConstraint_default : IKConstraint :=
  IKConstraint_new "constraint1"%string.

(** [GetValues()]: [g(0) = std::pow(x(0), 2) + x(1)] on the values of the
    variable set "var_set1". *)
Definition IKConstraint_GetValues (c : IKConstraint) (vars : Composite)
  : option (seq R) :=
  let g := vec_resize (constraint_rows_ c) ([::] : seq R) in
  if GetComponent vars "var_set1"%string is Some v then
    let x := GetValues v in
    if vec_get x 0 is Some x0 then
      if vec_get x 1 is Some x1 then vec_set g 0 (x0 ^+ 2 + x1)
      else None
    else None
  else None.

(** [GetBounds()]: [b.at(0) = Bounds(1.0, 1.0)]. *)
Definition IKConstraint_GetBounds (c : IKConstraint)
  : option (seq Bounds) :=
  vec_set (nseq (constraint_rows_ c) Bounds_default) 0 (mkBounds 1 1).

(** [FillJacobianBlock(var_set, jac_block)]: for "var_set1" only,
    [jac_block.coeffRef(0, 0) = 2.0*x(0)] and
    [jac_block.coeffRef(0, 1) = 1.0]. *)
Definition IKConstraint_FillJacobianBlock (c : IKConstraint)
    (vars : Composite) (var_set : string) (jac_block : Jacobian)
  : option Jacobian :=
  if String.eqb var_set "var_set1"%string then
    if GetComponent vars "var_set1"%string is Some v then
      let x := GetValues v in
      if vec_get x 0 is Some x0 then
        if coeffRef_set jac_block 0 0 (2%:R * x0) is Some jac_block1
        then coeffRef_set jac_block1 0 1 1
        else None
      else None
    else None
  else Some jac_block.

(** *** IKCost (lines 142-253) *)

(** The static function [cost] (lines 178-214), for any [AutoDiffType]
    [D] into which a [Scalar] converts by [inj] (the identity when [D] is
    [R], [lift] when [D] is [dual R]).  Integer literals convert by
    [%:R].  The [rot2rpy] calls of lines 189 and 194 fill
    [Theta_st_current] and [Theta_st_desired], which nothing reads; they
    are left out.  The products with [W] need [q] to have [model->n_q]
    entries: [None] stands for Eigen's failed size assertion. *)
Definition cost (D : comNzRingType) (inj : R -> D) (q_ : seq D)
    (model : RobotModel D) (source_link_name target_link_name : string)
    (desired_pose : Transform R) : option 'M[D]_(1, 1) :=
  let Hst_current :=
    forward_kinematics model q_ source_link_name target_link_name in
  let Rst_current := linear Hst_current in
  let Rst_desired := map_mx inj (linear desired_pose) in
  let o_error : 'M[D]_(1, 1) :=
    const_mx (orientation_error Rst_desired Rst_current) in
  let n := n_q model in
  if size q_ == n then
    let qv := vec_of_seq n q_ in
    let W : 'M[D]_n := 1%:M in
    let K : 'M[D]_3 := 1%:M in
    let d := translation Hst_current
             - map_mx inj (translation desired_pose) in
    Some (d^T *s 1%:R *m K *m d
          + qv^T *s inj (10%:R ^- 6) *m W *m qv
          + o_error *s 50%:R *m o_error)
  else None.

(** The members of an [IKCost<Scalar, AutoDiffType>] with
    [AutoDiffType = autodiff::dual]: the model is the dual-typed one. *)
Record IKCost : Type := mkIKCost {
  cost_name_ : string;
  model : RobotModel (dual R);
  source_link_name : string;
  target_link_name : string;
  desired_pose : Transform R
}.

Definition IKCost_new (name : string) (_model : RobotModel (dual R))
    (_source_link_name _target_link_name : string)
    (_desired_pose : Transform R) : IKCost :=
  mkIKCost name _model _source_link_name _target_link_name _desired_pose.

(** [GetCost()] (lines 220-229): the current values of the variable set
    "configuration_vector" are converted to dual numbers, [cost] is
    evaluated on them with the members of the cost term, and [val] of its
    entry [(0, 0)] is returned. *)
Definition GetCost (c : IKCost) (vars : Composite) : option R :=
  if GetComponent vars "configuration_vector"%string is Some v then
    let q_auto := [seq lift x | x <- GetValues v] in
    if cost (@lift R) q_auto (model c) (source_link_name c)
         (target_link_name c) (desired_pose c) is Some cost_val
    then Some (dual_val (cost_val 0 0))
    else None
  else None.

(** autodiff's [jacobian(f, wrt(x), at(x, ...), F)] for a function with
    one output row: for each entry [i] of [x] in turn the entry is
    seeded, [f] is evaluated, the entry is unseeded, and column [i] of
    the result is the derivative part of the output.  With no entry in
    [x] the result stays the empty matrix. *)
Fixpoint jacobian_columns (f : seq (dual R) -> option 'M[dual R]_(1, 1))
    (x : seq (dual R)) (idx : seq nat) : option (seq R) :=
  match idx with
  | [::] => Some [::]
  | i :: idx' =>
      if f (seed i x) is Some F then
        if jacobian_columns f x idx' is Some row
        then Some (dual_grad (F 0 0) :: row)
        else None
      else None
  end.

Definition jacobian (f : seq (dual R) -> option 'M[dual R]_(1, 1))
    (x : seq (dual R)) : option (MatrixX R) :=
  if size x is 0%N then Some [::]
  else if jacobian_columns f x (iota 0 (size x)) is Some row
       then Some [:: row]
       else None.

(** The loop of [FillJacobianBlock], from column [i] for [k] more rounds:
    [jac.coeffRef(0, i) = J(0, i)]. *)
Fixpoint FillJacobianBlock_loop (J : MatrixX R) (k i : nat) (jac : Jacobian)
  : option Jacobian :=
  match k with
  | 0%N => Some jac
  | k'.+1 =>
      if mat_get J 0 i is Some Ji then
        if coeffRef_set jac 0 i Ji is Some jac'
        then FillJacobianBlock_loop J k' i.+1 jac'
        else None
      else None
  end.

(** [FillJacobianBlock(var_set, jac)] (lines 234-252). *)
Definition FillJacobianBlock (c : IKCost) (vars : Composite)
    (var_set : string) (jac : Jacobian) : option Jacobian :=
  if String.eqb var_set "configuration_vector"%string then
    if GetComponent vars "configuration_vector"%string is Some v then
      let q_auto := [seq lift x | x <- GetValues v] in
      let f := fun x => cost (@lift R) x (model c) (source_link_name c)
                          (target_link_name c) (desired_pose c) in
      if jacobian f q_auto is Some J then
        FillJacobianBlock_loop J (n_q (model c)) 0
          (sp_resize jac (mat_rows J) (mat_cols J))
      else None
    else None
  else Some jac.

(** *** The solver and the driver (lines 264-293) *)

(** [ifopt::Problem]: the composite of variable sets, the constraint
    sets and the cost terms. *)
Record Problem : Type := mkProblem {
  variables_ : Composite;
  constraints_ : seq IKConstraint;
  costs_ : seq IKCost
}.

Definition Problem_new : Problem := mkProblem [::] [::] [::].

Definition AddVariableSet (nlp : Problem) (v : IKVariables) : Problem :=
  mkProblem (rcons (variables_ nlp) v) (constraints_ nlp) (costs_ nlp).

Definition AddConstraintSet (nlp : Problem) (c : IKConstraint) : Problem :=
  mkProblem (variables_ nlp) (rcons (constraints_ nlp) c) (costs_ nlp).

Definition AddCostSet (nlp : Problem) (c : IKCost) : Problem :=
  mkProblem (variables_ nlp) (constraints_ nlp) (rcons (costs_ nlp) c).

(** [nlp.GetOptVariables()]: the composite of variable sets. *)
Definition GetOptVariables (nlp : Problem) : Composite := variables_ nlp.

(** The value of an Ipopt option: a string, an integer or a number. *)
Inductive OptionValue : Type :=
| StringValue (s : string)
| IntegerValue (z : int)
| NumericValue (r : R).

(** [ifopt::IpoptSolver], through the options set on it. *)
Record IpoptSolver : Type := mkIpoptSolver {
  options_ : seq (string * OptionValue)
}.

Definition IpoptSolver_new : IpoptSolver := mkIpoptSolver [::].

(** [ipopt.SetOption(name, value)]: a later value replaces an earlier
    one. *)
Definition SetOption (ipopt : IpoptSolver) (name : string)
    (value : OptionValue) : IpoptSolver :=
  mkIpoptSolver
    ((name, value)
       :: [seq o <- options_ ipopt | ~~ String.eqb o.1 name]).

Fixpoint lookup_option (os : seq (string * OptionValue)) (name : string)
  : option OptionValue :=
  match os with
  | [::] => None
  | o :: os' => if String.eqb o.1 name then Some o.2
                else lookup_option os' name
  end.

Definition GetOption (ipopt : IpoptSolver) (name : string)
  : option OptionValue :=
  lookup_option (options_ ipopt) name.

(** [ipopt.Solve(nlp)]: the external solver.  It receives the configured
    solver and the problem and leaves the problem with updated variable
    sets; [None] stands for a solve that does not return. *)
Variable Solve : IpoptSolver -> Problem -> option Problem.

(** Lines 271-288: everything the driver does before the solve.  The
    dual model is cast from the real one, the problem gets one variable
    set and one cost term, and the solver gets its four options. *)
Definition inverse_kinematics_setup (model_ : RobotModel R)
    (source_link_name_ target_link_name_ : string)
    (desired_pose_ : Transform R) (q0 : seq R) : IpoptSolver * Problem :=
  let autodiff_model := cast model_ in
  let nlp := Problem_new in
  let nlp :=
    AddVariableSet nlp
      (IKVariables_new "configuration_vector"%string model_ q0) in
  let nlp :=
    AddCostSet nlp
      (IKCost_new "IK_cost"%string autodiff_model source_link_name_
         target_link_name_ desired_pose_) in
  let ipopt := IpoptSolver_new in
  let ipopt :=
    SetOption ipopt "linear_solver"%string (StringValue "mumps"%string) in
  let ipopt :=
    SetOption ipopt "jacobian_approximation"%string
      (StringValue "exact"%string) in
  let ipopt := SetOption ipopt "max_iter"%string (IntegerValue 250%:Z) in
  let ipopt :=
    SetOption ipopt "acceptable_tol"%string (NumericValue (10%:R ^- 9)) in
  (ipopt, nlp).

(** [inverse_kinematics] (lines 264-293): the setup, [ipopt.Solve(nlp)],
    and the values of the variable sets after the solve. *)
Definition inverse_kinematics (model_ : RobotModel R)
    (source_link_name_ target_link_name_ : string)
    (desired_pose_ : Transform R) (q0 : seq R) : option (seq R) :=
  let: (ipopt, nlp) :=
    inverse_kinematics_setup model_ source_link_name_ target_link_name_
      desired_pose_ q0 in
  if Solve ipopt nlp is Some nlp'
  then Some (Composite_GetValues (GetOptVariables nlp'))
  else None.

(** *** Auxiliary definitions for the statements below *)

(** The entry of the matrix [cost] returns, with the three products of
    line 210-212 written out as sums: [H] is the current pose, [x] the
    configuration, [n] the number of joints. *)
Definition cost_value (D : comNzRingType) (inj : R -> D) (H : Transform D)
    (desired : Transform R) (n : nat) (x : seq D) : D :=
  let d := translation H - map_mx inj (translation desired) in
  let e := orientation_error (map_mx inj (linear desired)) (linear H) in
  \sum_(i < 3) d i 0 * d i 0
  + \sum_(i < n) nth 0 x i * inj (10%:R ^- 6) * nth 0 x i
  + e * 50%:R * e.

(** The value part of a dual transform. *)
Definition Transform_val (H : Transform (dual R)) : Transform R :=
  mkTransform (map_mx (@dual_val R) (linear H))
              (map_mx (@dual_val R) (translation H)).

(** The three settings of the solver the specification names, as a
    predicate on a configured solver. *)
Definition default_settings (ipopt : IpoptSolver) : Prop :=
  [/\ GetOption ipopt "jacobian_approximation"%string
      = Some (StringValue "exact"%string),
      GetOption ipopt "max_iter"%string = Some (IntegerValue 250%:Z)
    & GetOption ipopt "acceptable_tol"%string
      = Some (NumericValue (10%:R ^- 9))].

(** * Properties *)

(** ** Matrix algebra used below *)

Lemma scalemxrE (D : comNzRingType) (m n : nat) (A : 'M[D]_(m, n)) (s : D) :
  A *s s = s *: A.
Proof. by apply/matrixP => i j; rewrite !mxE mulrC. Qed.

Lemma mxtrace_mul_tr (D : comNzRingType) (n : nat) (A B : 'M[D]_n) :
  \tr (A *m B^T) = \sum_i \sum_j A i j * B i j.
Proof.
rewrite /mxtrace; apply: eq_bigr => i _; rewrite mxE.
by apply: eq_bigr => j _; rewrite mxE.
Qed.

(** Twice the orientation error of two orthogonal matrices is the squared
    Frobenius distance between them. *)
Lemma orientation_error_distance (A B : 'M[R]_3) :
  A *m A^T = 1%:M -> B *m B^T = 1%:M ->
  orientation_error A B *+ 2 = \sum_i \sum_j (A i j - B i j) ^+ 2.
Proof.
move=> orthA orthB.
have sqA : \sum_i \sum_j A i j ^+ 2 = \tr (1%:M : 'M[R]_3).
  by rewrite -orthA mxtrace_mul_tr.
have sqB : \sum_i \sum_j B i j ^+ 2 = \tr (1%:M : 'M[R]_3).
  by rewrite -orthB mxtrace_mul_tr.
have -> : \sum_i \sum_j (A i j - B i j) ^+ 2
          = \sum_i \sum_j A i j ^+ 2 - (\sum_i \sum_j A i j * B i j) *+ 2
            + \sum_i \sum_j B i j ^+ 2.
  rewrite -sumrMnl -sumrB -big_split /=; apply: eq_bigr => i _.
  rewrite -sumrMnl -sumrB -big_split /=; apply: eq_bigr => j _.
  by rewrite sqrrB.
rewrite sqA sqB -mxtrace_mul_tr /orientation_error /= raddfB /=.
by rewrite mulrnBl addrAC mulr2n.
Qed.

Lemma orientation_error_eq0 (A B : 'M[R]_3) :
  A *m A^T = 1%:M -> B *m B^T = 1%:M ->
  (orientation_error A B == 0) = (A == B).
Proof.
move=> orthA orthB.
have -> : (orientation_error A B == 0) = (orientation_error A B *+ 2 == 0).
  by rewrite mulrn_eq0.
rewrite orientation_error_distance //.
have row_ge0 i : true -> 0 <= \sum_j (A i j - B i j) ^+ 2.
  by move=> _; apply: sumr_ge0 => j _; apply: sqr_ge0.
rewrite psumr_eq0 //.
apply/allP/eqP => [eq0|-> i _]; last first.
  by apply/implyP => _; rewrite big1 // => j _; rewrite subrr expr0n.
apply/matrixP => i j; apply/eqP; rewrite -subr_eq0.
have rowi : all (fun j => true ==> ((A i j - B i j) ^+ 2 == 0))
              (index_enum (ordinal 3)).
  rewrite -psumr_eq0 => [k _|]; first exact: sqr_ge0.
  exact: (eq0 i (mem_index_enum _)).
by have := allP rowi j (mem_index_enum _); rewrite /= expf_eq0.
Qed.

(** C8: for two 3D rotation matrices, the orientation error
    [trace(I - R_desired * R_current^T)] computed by [IKCost::cost] is
    zero if and only if the two rotations coincide. *)
Theorem orientation_error_zero_iff (R_desired R_current : 'M[R]_3) :
  is_rotation R_desired -> is_rotation R_current ->
  orientation_error R_desired R_current = 0 <-> R_desired = R_current.
Proof.
move=> /andP[/eqP orthd _] /andP[/eqP orthc _].
split=> /eqP.
  by rewrite orientation_error_eq0 // => /eqP.
by rewrite -(orientation_error_eq0 orthd orthc) => /eqP.
Qed.

(** ** The value of the cost function *)

Lemma mulmx11 (D : comNzRingType) (A B : 'M[D]_(1, 1)) :
  (A *m B) 0 0 = A 0 0 * B 0 0.
Proof. by rewrite mxE big_ord_recl big_ord0 addr0. Qed.

(** [cost] is defined on every configuration of [n_q] entries, and its
    entry is [cost_value]. *)
Lemma costE (D : comNzRingType) (inj : R -> D) (q_ : seq D)
    (m : RobotModel D) (source target : string) (desired : Transform R) :
  size q_ = n_q m ->
  cost inj q_ m source target desired
  = Some (const_mx (cost_value inj (forward_kinematics m q_ source target)
                      desired (n_q m) q_)).
Proof.
move=> size_q; rewrite /cost size_q eqxx; congr Some.
apply/matrixP => i j; rewrite !ord1 [RHS]mxE [LHS]mxE [X in X + _]mxE.
rewrite /cost_value !mulmx1 mulmx11; congr (_ + _ + _); last by rewrite !mxE.
  by rewrite mxE; apply: eq_bigr => k _; rewrite !mxE mulr1.
by rewrite mxE; apply: eq_bigr => k _; rewrite !mxE.
Qed.

(** C1: for a configuration [q] of [n_q] entries, [cost] returns the 1x1
    matrix whose entry is the sum of the translation term
    [d^T * K * d], with [d] the current translation minus the desired one
    and [K] the 3x3 identity, the regularization term
    [q^T * (1e-6 * I) * q], and the orientation term [e * 50 * e], with
    [e = trace(I - R_desired * R_current^T)]; everything is computed in
    the scalar type [D] of [q].  The three terms are written here with
    the matrix operations of the library, on the entries of [q] and of
    the two poses. *)
Theorem cost_sum_of_three_terms (D : comNzRingType) (inj : R -> D)
    (q_ : seq D) (m : RobotModel D) (source target : string)
    (desired : Transform R) :
  size q_ = n_q m ->
  let Hst_current := forward_kinematics m q_ source target in
  let K : 'M[D]_3 := 1%:M in
  let d : 'cV[D]_3 :=
    \col_i (translation Hst_current i 0 - inj (translation desired i 0)) in
  let qv : 'cV[D]_(n_q m) := \col_i nth 0 q_ i in
  let R_desired : 'M[D]_3 := \matrix_(i, j) inj (linear desired i j) in
  let e := \tr (1%:M - R_desired *m (linear Hst_current)^T) in
  cost inj q_ m source target desired
  = Some (const_mx ((d^T *m K *m d) 0 0
                    + (qv^T *m (inj (10%:R ^- 6) *: 1%:M) *m qv) 0 0
                    + e * 50%:R * e)).
Proof.
move=> size_q Hst_current K d qv R_desired e.
rewrite /cost size_q eqxx; congr Some.
apply/matrixP => i j; rewrite !ord1 [RHS]mxE [LHS]mxE [X in X + _]mxE.
congr (_ + _ + _).
- rewrite scalemxrE scale1r -/Hst_current.
  have -> // : translation Hst_current - map_mx inj (translation desired) = d.
  by apply/colP => k; rewrite !mxE.
- by rewrite scalemxrE mulmx1 scalemx1 mul_mx_scalar.
- rewrite mulmx11 !mxE /orientation_error -/Hst_current.
  have -> // : map_mx inj (linear desired) = R_desired.
  by apply/matrixP => k l; rewrite !mxE.
Qed.

(** ** The variable set *)

Lemma vec_set_inside (T : Type) (x : seq T) (i : nat) (a : T) :
  (i < size x)%N -> vec_set x i a = Some (set_nth a x i a).
Proof. by rewrite /vec_set => ->. Qed.

(** The loop of [GetBounds] never leaves the vector, keeps its size and
    overwrites exactly the [k] entries from index [i] on. *)
Lemma GetBounds_loop_spec (k i : nat) (bounds : seq Bounds) :
  let b := mkBounds (- M_PI) M_PI in
  (i + k <= size bounds)%N ->
  exists2 r, GetBounds_loop k i bounds = Some r
    & size r = size bounds
      /\ forall j, nth b r j = if (i <= j < i + k)%N then b
                               else nth b bounds j.
Proof.
move=> b; elim: k i bounds => [|k IHk] i bounds.
  move=> _; exists bounds => //; split=> // j.
  by rewrite addn0; case: (leqP i j) => //= /ltnW; rewrite leqNgt => /negbTE ->.
rewrite -addSnnS => le_ik /=.
have lt_i : (i < size bounds)%N by apply: leq_trans le_ik; apply: leq_addr.
have size_set : size (set_nth b bounds i b) = size bounds.
  by rewrite size_set_nth; apply/maxn_idPr.
rewrite vec_set_inside //.
have le_ik' : (i.+1 + k <= size (set_nth b bounds i b))%N by rewrite size_set.
have [r -> [size_r nth_r]] := IHk _ _ le_ik'.
exists r => //; split=> [|j]; first by rewrite size_r size_set.
rewrite nth_r nth_set_nth /=; case: (eqVneq j i) => [->|ne_ji].
  by rewrite ltnn leqnn /= leq_addr.
by rewrite [(i <= j)%N]leq_eqVlt eq_sym (negbTE ne_ji).
Qed.

(** C6: whatever the variable set went through since its construction,
    [GetBounds()] returns exactly [n_q] pairs, each [(-M_PI, M_PI)]. *)
Theorem GetBounds_pi (name : string) (m : RobotModel R) (q0 : seq R)
    (updates : seq (seq R)) :
  GetBounds (foldl SetVariables (IKVariables_new name m q0) updates)
  = Some (nseq (n_q m) (mkBounds (- M_PI) M_PI)).
Proof.
have rows v : GetRows (foldl SetVariables v updates) = GetRows v.
  by elim: updates v => [|x xs IHxs] v //=; rewrite IHxs.
rewrite /GetBounds rows /=.
have le_n : (0 + n_q m <= size (nseq (n_q m) Bounds_default))%N.
  by rewrite size_nseq.
have [r -> [size_r nth_r]] := GetBounds_loop_spec le_n.
congr Some; apply: (eq_from_nth (x0 := mkBounds (- M_PI) M_PI)).
  by rewrite size_r !size_nseq.
move=> j; rewrite size_r size_nseq nth_r nth_nseq add0n /= => lt_j.
by rewrite lt_j nth_nseq lt_j.
Qed.

(** C7: [SetVariables(v)] followed by [GetValues()] returns [v]. *)
Theorem SetVariables_GetValues (v : IKVariables) (x : seq R) :
  size x = GetRows v -> GetValues (SetVariables v x) = x.
Proof. by []. Qed.

(** C5, as the code has it: neither the constructor nor [SetVariables]
    looks at the length of the vector it is given.  Each stores the
    vector as supplied, with the length it came with, and the number of
    rows announced to the solver stays [n_q]. *)
Theorem IKVariables_store_any_length (name : string) (m : RobotModel R)
    (v : IKVariables) (x : seq R) :
  [/\ GetValues (IKVariables_new name m x) = x,
      GetRows (IKVariables_new name m x) = n_q m,
      GetValues (SetVariables v x) = x
    & GetRows (SetVariables v x) = GetRows v].
Proof. by []. Qed.

(** ** The example constraint *)

Lemma vec_get_inside (D : comNzRingType) (x : seq D) (i : nat) :
  (i < size x)%N -> vec_get x i = Some (nth 0 x i).
Proof. by rewrite /vec_get => ->. Qed.

Lemma coeff_coeffRef_set (D : comNzRingType) (A A' : SparseMatrix D)
    (i j : nat) (a : D) :
  coeffRef_set A i j a = Some A' ->
  [/\ sp_rows A' = sp_rows A, sp_cols A' = sp_cols A, coeff A' i j = a
    & forall k l, (k, l) != (i, j) -> coeff A' k l = coeff A k l].
Proof.
rewrite /coeffRef_set; case: ifP => // _ [<-]; split=> //.
  by rewrite /coeff /= eqxx.
move=> k l ne_kl; rewrite /coeff /= [(i, j) == _]eq_sym (negbTE ne_kl).
rewrite -filter_predI.
have -> // : [seq e <- sp_entries A | predI (fun e => e.1 == (k, l))
                                        (fun e => e.1 != (i, j)) e]
            = [seq e <- sp_entries A | e.1 == (k, l)].
by apply: eq_filter => e /=; case: eqP => // ->; rewrite ne_kl.
Qed.

(** ** The cost term: value *)

Lemma map_mx_val_lift (m n : nat) (A : 'M[R]_(m, n)) :
  map_mx (@dual_val R) (map_mx (@lift R) A) = A.
Proof. by apply/matrixP => i j; rewrite !mxE. Qed.

Lemma val_entry (m n : nat) (A : 'M[dual R]_(m, n)) i j :
  dual_val (A i j) = (map_mx (@dual_val R) A) i j.
Proof. by rewrite mxE. Qed.

Lemma val_orientation_error (A : 'M[R]_3) (B : 'M[dual R]_3) :
  dual_val (orientation_error (map_mx (@lift R) A) B)
  = orientation_error (map_mx id A) (map_mx (@dual_val R) B).
Proof.
rewrite /orientation_error /mxtrace /= rmorph_sum; apply: eq_bigr => i _ /=.
rewrite val_entry map_mxB map_mx1 map_mxM -map_trmx map_mx_val_lift.
by rewrite map_mx_id.
Qed.

Lemma val_add (a b : dual R) : dual_val (a + b) = dual_val a + dual_val b.
Proof. exact: rmorphD. Qed.

Lemma val_mul (a b : dual R) : dual_val (a * b) = dual_val a * dual_val b.
Proof. exact: rmorphM. Qed.

Lemma val_nat (n : nat) : dual_val (n%:R : dual R) = n%:R.
Proof. exact: rmorph_nat. Qed.

Lemma val_sum (I : Type) (r : seq I) (F : I -> dual R) :
  dual_val (\sum_(i <- r) F i) = \sum_(i <- r) dual_val (F i).
Proof. exact: rmorph_sum. Qed.

Lemma val_nth_lift (x : seq R) (i : nat) :
  dual_val (nth 0 [seq lift a | a <- x] i) = nth 0 x i.
Proof.
case: (ltnP i (size x)) => [lt_i|le_i]; first by rewrite (nth_map 0).
by rewrite !nth_default // size_map.
Qed.

(** The value part of the cost in dual arithmetic, at a configuration
    converted from reals, is the cost in real arithmetic on the value
    part of the pose. *)
Lemma val_cost_value (H : Transform (dual R)) (desired : Transform R)
    (n : nat) (x : seq R) :
  dual_val (cost_value (@lift R) H desired n [seq lift a | a <- x])
  = cost_value id (Transform_val H) desired n x.
Proof.
rewrite /cost_value; cbv zeta.
rewrite !val_add !val_mul val_nat val_orientation_error !val_sum.
congr (_ + _ + _).
  apply: eq_bigr => i _; rewrite val_mul !val_entry.
  by rewrite map_mxB map_mx_val_lift map_mx_id.
by apply: eq_bigr => i _; rewrite !val_mul !val_nth_lift.
Qed.

(** [GetCost] on a variable set of [n_q] values, through [cost_value]. *)
Lemma GetCostE (c : IKCost) (vars : Composite) (v : IKVariables) :
  GetComponent vars "configuration_vector"%string = Some v ->
  size (GetValues v) = n_q (model c) ->
  let q_auto := [seq lift x | x <- GetValues v] in
  GetCost c vars
  = Some (dual_val
            (cost_value (@lift R)
               (forward_kinematics (model c) q_auto (source_link_name c)
                  (target_link_name c))
               (desired_pose c) (n_q (model c)) q_auto)).
Proof.
move=> get_v size_v q_auto; rewrite /GetCost get_v -/q_auto.
by rewrite costE ?size_map // mxE.
Qed.

(** C3, as the code has it: [GetCost()] evaluates [cost] in dual
    arithmetic, on the dual-typed model held by the cost term and the
    current values converted to dual numbers, and returns the value part
    of the result.  That number is the plain evaluation of [cost] on a
    real-typed model whenever the value part of the dual kinematics at
    the current values is the kinematics of that real model. *)
Theorem GetCost_value_of_dual_cost (c : IKCost) (vars : Composite)
    (v : IKVariables) :
  GetComponent vars "configuration_vector"%string = Some v ->
  size (GetValues v) = n_q (model c) ->
  let q_auto := [seq lift x | x <- GetValues v] in
  (exists2 cost_val,
     cost (@lift R) q_auto (model c) (source_link_name c)
       (target_link_name c) (desired_pose c) = Some cost_val
     & GetCost c vars = Some (dual_val (cost_val 0 0)))
  /\ (forall real_model : RobotModel R,
        n_q real_model = n_q (model c) ->
        Transform_val (forward_kinematics (model c) q_auto
                         (source_link_name c) (target_link_name c))
        = forward_kinematics real_model (GetValues v)
            (source_link_name c) (target_link_name c) ->
        exists2 real_val,
          cost id (GetValues v) real_model (source_link_name c)
            (target_link_name c) (desired_pose c) = Some real_val
          & GetCost c vars = Some (real_val 0 0)).
Proof.
move=> get_v size_v q_auto.
have size_q : size q_auto = n_q (model c) by rewrite size_map.
have cost_q := costE (@lift R) (source_link_name c) (target_link_name c)
                 (desired_pose c) size_q.
split; first by rewrite /GetCost get_v -/q_auto cost_q; eexists.
move=> real_model n_q_real fk_val.
have size_r : size (GetValues v) = n_q real_model by rewrite n_q_real.
rewrite (costE id _ _ _ size_r); eexists; first by [].
rewrite /GetCost get_v -/q_auto cost_q !mxE val_cost_value.
by rewrite fk_val n_q_real.
Qed.

(** ** The cost term: Jacobian *)

(** Derivative parts: sums add them, products follow the Leibniz rule,
    and a seeded vector carries a one in the seeded entry only. *)
Lemma grad_add (a b : dual R) :
  dual_grad (a + b) = dual_grad a + dual_grad b.
Proof. by []. Qed.

Lemma grad_mul (a b : dual R) :
  dual_grad (a * b) = dual_val a * dual_grad b + dual_grad a * dual_val b.
Proof. by []. Qed.

Lemma grad_sum (I : Type) (r : seq I) (F : I -> dual R) :
  dual_grad (\sum_(i <- r) F i) = \sum_(i <- r) dual_grad (F i).
Proof. exact: (big_morph (@dual_grad R) grad_add). Qed.

Lemma val_nth_seed (x : seq R) (i k : nat) :
  dual_val (nth 0 (seed i [seq lift a | a <- x]) k) = nth 0 x k.
Proof.
rewrite /seed size_map; case: ifP => [lt_i|_]; last exact: val_nth_lift.
by rewrite nth_set_nth /=; case: eqP => [->|_] /=; rewrite val_nth_lift.
Qed.

Lemma grad_nth_seed (x : seq R) (i k : nat) :
  (i < size x)%N ->
  dual_grad (nth 0 (seed i [seq lift a | a <- x]) k) = (k == i)%:R.
Proof.
move=> lt_i; rewrite /seed size_map lt_i nth_set_nth /=.
case: eqP => [//|_] /=.
case: (ltnP k (size x)) => [lt_k|le_k]; first by rewrite (nth_map 0).
by rewrite nth_default // size_map.
Qed.

Lemma sum_indicator (n i : nat) (F : nat -> R) :
  (i < n)%N -> \sum_(k < n) F k * (k == i :> nat)%:R = F i.
Proof.
move=> lt_i; rewrite (bigD1 (Ordinal lt_i)) //= eqxx mulr1 big1 ?addr0 //.
by move=> k; rewrite -val_eqE /= => /negbTE ->; rewrite mulr0.
Qed.

Lemma grad_lift (a : R) : dual_grad (lift a) = 0.
Proof. by []. Qed.

Lemma val_zero : dual_val (0 : dual R) = 0.
Proof. by []. Qed.

Lemma grad_zero : dual_grad (0 : dual R) = 0.
Proof. by []. Qed.

(** When [f] is defined on every vector of the size of [x], the columns
    computed by [jacobian] are the derivative parts of [f] at [x] seeded
    in one entry after the other. *)
Lemma jacobian_columns_spec (f : seq (dual R) -> option 'M[dual R]_(1, 1))
    (g : seq (dual R) -> dual R) (x : seq (dual R)) (idx : seq nat) :
  (forall y, size y = size x -> f y = Some (const_mx (g y))) ->
  jacobian_columns f x idx
  = Some [seq dual_grad (g (seed i x)) | i <- idx].
Proof.
move=> f_def; elim: idx => [|i idx IHidx] //=.
by rewrite f_def ?size_seed // IHidx mxE.
Qed.

Lemma mat_get_row (D : comNzRingType) (row : seq D) (j : nat) :
  (j < size row)%N -> mat_get [:: row] 0 j = Some (nth 0 row j).
Proof. by move=> lt_j; rewrite /mat_get /= vec_get_inside. Qed.

(** The loop of [FillJacobianBlock] stays inside a one-row matrix [J] and
    a block of matching width, writes columns [i] to [i + k - 1] of row 0
    and touches nothing else. *)
Lemma FillJacobianBlock_loop_spec (row : seq R) (k i : nat)
    (jac : Jacobian) :
  (i + k <= size row)%N -> (0 < sp_rows jac)%N ->
  sp_cols jac = size row ->
  exists2 jac', FillJacobianBlock_loop [:: row] k i jac = Some jac'
    & [/\ sp_rows jac' = sp_rows jac, sp_cols jac' = sp_cols jac,
          forall j, (i <= j < i + k)%N -> coeff jac' 0 j = nth 0 row j
        & forall r j, ~~ ((r == 0%N) && (i <= j < i + k)%N) ->
                      coeff jac' r j = coeff jac r j].
Proof.
elim: k i jac => [|k IHk] i jac.
  move=> _ _ _; exists jac => //; split=> // j.
  by rewrite addn0; case: (leqP i j) => //= /ltnW; rewrite leqNgt => /negbTE ->.
rewrite -addSnnS => le_ik rows_pos cols_row /=.
have lt_i : (i < size row)%N by apply: leq_trans le_ik; apply: leq_addr.
rewrite mat_get_row //.
case set_i : (coeffRef_set jac 0 i (nth 0 row i)) => [jac1|]; last first.
  by move: set_i; rewrite /coeffRef_set rows_pos cols_row lt_i.
have [rows1 cols1 c_i other1] := coeff_coeffRef_set set_i.
have rows1_pos : (0 < sp_rows jac1)%N by rewrite rows1.
have cols1_row : sp_cols jac1 = size row by rewrite cols1.
have [jac' -> [rows' cols' written other']] :=
  IHk i.+1 jac1 le_ik rows1_pos cols1_row.
exists jac' => //; split=> [||j|r j]; rewrite ?rows' ?cols' //.
- rewrite leq_eqVlt => /andP[/orP[/eqP <-|lt_ij] lt_j].
    by rewrite other' ?c_i // ltnn.
  by rewrite written // lt_ij.
- move=> outside.
  have ne_ri : (r, j) != (0%N, i).
    by apply: contra outside => /eqP[-> ->]; rewrite eqxx leqnn /= leq_addr.
  have outside' : ~~ ((r == 0%N) && (i.+1 <= j < i.+1 + k)%N).
    by apply: contra outside => /and3P[-> lt_ij ->]; rewrite (ltnW lt_ij).
  by rewrite other' // other1.
Qed.

(** [FillJacobianBlock] on a variable set of [n_q] values, through
    [cost_value]: the block is resized to the Jacobian autodiff returns,
    row 0 receives the derivative parts, and nothing else is stored. *)
Lemma FillJacobianBlockE (c : IKCost) (vars : Composite)
    (v : IKVariables) (jac : Jacobian) :
  GetComponent vars "configuration_vector"%string = Some v ->
  size (GetValues v) = n_q (model c) ->
  let q_auto := [seq lift x | x <- GetValues v] in
  let g := fun y : seq (dual R) =>
    cost_value (@lift R)
      (forward_kinematics (model c) y (source_link_name c)
         (target_link_name c))
      (desired_pose c) (n_q (model c)) y in
  exists2 jac',
    FillJacobianBlock c vars "configuration_vector"%string jac = Some jac'
    & [/\ sp_rows jac' = (if n_q (model c) is 0 then 0 else 1)%N,
          sp_cols jac' = n_q (model c),
          forall i, (i < n_q (model c))%N ->
            coeff jac' 0 i = dual_grad (g (seed i q_auto))
        & forall r i : nat, ~~ ((r == 0%N) && (i < n_q (model c))%N) ->
            coeff jac' r i = 0].
Proof.
move=> get_v size_v q_auto g.
have size_q : size q_auto = n_q (model c) by rewrite size_map.
pose f x := cost (@lift R) x (model c) (source_link_name c)
              (target_link_name c) (desired_pose c).
have f_def y : size y = size q_auto -> f y = Some (const_mx (g y)).
  by rewrite size_q /f => /costE ->.
rewrite /FillJacobianBlock String.eqb_refl get_v -/q_auto -/f /jacobian size_q.
rewrite (jacobian_columns_spec _ f_def).
set row := [seq dual_grad (g (seed i q_auto)) | i <- iota 0 (n_q (model c))].
have size_row : size row = n_q (model c) by rewrite /row size_map size_iota.
have nth_row i : (i < n_q (model c))%N ->
    nth 0 row i = dual_grad (g (seed i q_auto)).
  move=> lt_i; rewrite /row (nth_map 0%N); first by rewrite size_iota.
  by rewrite nth_iota.
case n_eq : (n_q (model c)) => [|n]; first by exists (sp_resize jac 0 0).
have le_n : (0 + n.+1 <= size row)%N by rewrite size_row n_eq.
pose jac0 := sp_resize jac (mat_rows [:: row]) (mat_cols [:: row]).
have rows0 : (0 < sp_rows jac0)%N by [].
have cols0 : sp_cols jac0 = size row by [].
have [jac' -> [rows' cols' written other']] :=
  FillJacobianBlock_loop_spec le_n rows0 cols0.
exists jac' => //; split=> [||i lt_i|r i outside].
- by rewrite rows'.
- by rewrite cols' /= /mat_cols /= size_row.
- rewrite written; first by rewrite add0n.
  by rewrite nth_row // n_eq.
- by rewrite other' ?add0n.
Qed.

(** A dual number is its value part and its derivative part. *)
Lemma dual_eta (a : dual R) : a = Dual (dual_val a) (dual_grad a).
Proof. by case: a. Qed.

(** A vector converted from reals carries zero derivatives; seeded in an
    entry [i] inside the vector, it carries a one in entry [i] and zeros
    elsewhere. *)
Lemma lift_seqE (x : seq R) :
  [seq lift a | a <- x] = mkseq (fun k => Dual (nth 0 x k) 0) (size x).
Proof.
apply: (@eq_from_nth _ 0) => [|k]; first by rewrite size_map size_mkseq.
by rewrite size_map => lt_k; rewrite nth_mkseq // (nth_map 0).
Qed.

Lemma seedE (x : seq R) (i : nat) :
  (i < size x)%N ->
  seed i [seq lift a | a <- x]
  = mkseq (fun k => Dual (nth 0 x k) (k == i)%:R) (size x).
Proof.
move=> lt_i; apply: (@eq_from_nth _ 0) => [|k].
  by rewrite size_seed size_map size_mkseq.
rewrite size_seed size_map => lt_k; rewrite nth_mkseq //.
by rewrite [LHS]dual_eta val_nth_seed grad_nth_seed.
Qed.

(** C2: with the current values [q] of the variable set
    "configuration_vector" ([n_q] of them), [FillJacobianBlock] resizes
    the block to one row and [n_q] columns and writes into column [i] the
    partial derivative of the cost with respect to [q_i] by forward-mode
    differentiation: the derivative part of [cost] evaluated on the dual
    numbers whose value parts are the entries of [q] and whose derivative
    parts are one in entry [i] and zero in every other entry.  Nothing
    else is stored in the block.  The function differentiated is the one
    [GetCost] takes the value from, evaluated there with all derivative
    parts zero.  (With [n_q = 0] there is no column and autodiff leaves
    the Jacobian empty, so the block has no row either.) *)
Theorem FillJacobianBlock_forward_mode (c : IKCost) (vars : Composite)
    (v : IKVariables) (jac : Jacobian) :
  GetComponent vars "configuration_vector"%string = Some v ->
  size (GetValues v) = n_q (model c) ->
  let q_ := GetValues v in
  let n := n_q (model c) in
  let dual_q := fun dq : nat -> R =>
    mkseq (fun k => Dual (nth 0 q_ k) (dq k)) n in
  let f := fun x => cost (fun a => Dual a 0) x (model c) (source_link_name c)
                      (target_link_name c) (desired_pose c) in
  (exists2 F, f (dual_q (fun=> 0)) = Some F
     & GetCost c vars = Some (dual_val (F 0 0)))
  /\ exists2 jac',
       FillJacobianBlock c vars "configuration_vector"%string jac
       = Some jac'
       & [/\ sp_rows jac' = (if n is 0 then 0 else 1)%N,
             sp_cols jac' = n,
             forall i, (i < n)%N ->
               exists2 F, f (dual_q (fun k => (k == i)%:R)) = Some F
                 & coeff jac' 0 i = dual_grad (F 0 0)
           & forall r i : nat, ~~ ((r == 0%N) && (i < n)%N) ->
               coeff jac' r i = 0].
Proof.
move=> get_v size_v q_ n dual_q f.
have q_autoE : [seq lift x | x <- GetValues v] = dual_q (fun=> 0).
  by rewrite /dual_q /n -size_v; exact: lift_seqE.
have seededE i : (i < n)%N ->
    seed i [seq lift x | x <- GetValues v] = dual_q (fun k => (k == i)%:R).
  by rewrite /dual_q /n -size_v; exact: seedE.
split.
  rewrite (GetCostE get_v size_v) /f -q_autoE costE ?size_map //.
  by eexists; first by []; rewrite mxE.
have [jac' fill [rows' cols' written other']] :=
  FillJacobianBlockE jac get_v size_v.
exists jac' => //; split=> // i lt_i.
rewrite written // /f -seededE // costE ?size_seed ?size_map //.
by eexists; first by []; rewrite mxE.
Qed.

(** ** The driver *)

(** C9, as the code has it: every call runs the solver with the exact
    Jacobian, at most 250 iterations and an acceptable tolerance of 1e-9
    (and the linear solver mumps).  The four options are literals of the
    driver: whatever the arguments of the call, the configured solver is
    the same one. *)
Theorem inverse_kinematics_fixed_settings (model_ : RobotModel R)
    (source target : string) (desired : Transform R) (q0 : seq R) :
  let ipopt := (inverse_kinematics_setup model_ source target desired q0).1 in
  let nlp := (inverse_kinematics_setup model_ source target desired q0).2 in
  [/\ default_settings ipopt,
      GetOption ipopt "linear_solver"%string
      = Some (StringValue "mumps"%string),
      inverse_kinematics model_ source target desired q0
      = omap (fun nlp' => Composite_GetValues (GetOptVariables nlp'))
          (Solve ipopt nlp)
    & forall (model' : RobotModel R) (source' target' : string)
        (desired' : Transform R) (q0' : seq R),
        (inverse_kinematics_setup model' source' target' desired' q0').1
        = ipopt].
Proof. by split=> //; rewrite /inverse_kinematics /=; case: (Solve _ _). Qed.


(** ** Further properties *)

(** In real arithmetic the cost is a sum of squares: it is never
    negative. *)
Lemma cost_value_ge0 (H : Transform R) (desired : Transform R) (n : nat)
    (x : seq R) :
  0 <= cost_value id H desired n x.
Proof.
rewrite /cost_value; cbv zeta; apply: addr_ge0; first apply: addr_ge0.
- by apply: sumr_ge0 => i _; rewrite -expr2 sqr_ge0.
- apply: sumr_ge0 => i _; rewrite mulrAC -expr2.
  by apply: mulr_ge0; rewrite ?sqr_ge0 // invr_ge0 exprn_ge0 // ler0n.
- by rewrite mulrAC -expr2 mulr_ge0 ?sqr_ge0 // ler0n.
Qed.

(** The Pose-Error Cost in real arithmetic is defined and non-negative
    at every configuration of [n_q] entries. *)
Theorem cost_nonnegative (q_ : seq R) (m : RobotModel R)
    (source target : string) (desired : Transform R) :
  size q_ = n_q m ->
  exists2 cost_val,
    cost id q_ m source target desired = Some cost_val
    & 0 <= cost_val 0 0.
Proof.
move=> size_q; rewrite costE //; eexists; first by [].
by rewrite mxE cost_value_ge0.
Qed.

(** The cost term contributes to the block of the variable set
    "configuration_vector" only: for any other name the block is left as
    it is. *)
Theorem FillJacobianBlock_other_name (c : IKCost) (vars : Composite)
    (var_set : string) (jac : Jacobian) :
  String.eqb var_set "configuration_vector"%string = false ->
  FillJacobianBlock c vars var_set jac = Some jac.
Proof. by rewrite /FillJacobianBlock => ->. Qed.

(** The example constraint is an equality to one: its single row is
    bounded by [(1, 1)]. *)
Theorem IKConstraint_GetBounds_one (name : string) :
  IKConstraint_GetBounds (IKConstraint_new name) = Some [:: mkBounds 1 1].
Proof. by []. Qed.

(** ** Where the cost vanishes, and how fast it grows *)

Lemma sum_sq_eq0 (n : nat) (F : 'I_n -> R) :
  (\sum_i F i * F i == 0) = [forall i, F i == 0].
Proof.
rewrite psumr_eq0 => [i _|]; first by rewrite -expr2 sqr_ge0.
apply/allP/forallP => [all0 i|all0 i _].
  by have := all0 i (mem_index_enum _); rewrite /= -expr2 sqrf_eq0.
by rewrite /= -expr2 sqrf_eq0.
Qed.

Lemma regularization_sum (n : nat) (x : seq R) :
  size x = n ->
  \sum_(i < n) nth 0 x i * 10%:R ^- 6 * nth 0 x i
  = 10%:R ^- 6 * \sum_(a <- x) a ^+ 2.
Proof.
move=> size_x; rewrite (big_nth 0) size_x big_mkord mulr_sumr.
by apply: eq_bigr => i _; rewrite mulrAC -expr2 mulrC.
Qed.

Lemma tol_gt0 : 0 < 10%:R ^- 6 :> R.
Proof. by rewrite invr_gt0 exprn_gt0 // ltr0n. Qed.

Lemma sum_sq_seq_eq0 (x : seq R) :
  (\sum_(a <- x) a ^+ 2 == 0) = (x == nseq (size x) 0).
Proof.
elim: x => [|a x IHx]; first by rewrite big_nil !eqxx.
rewrite big_cons /= eqseq_cons -IHx paddr_eq0 ?sqr_ge0 ?sqrf_eq0 //.
by apply: sumr_ge0 => b _; rewrite sqr_ge0.
Qed.

(** The cost in real arithmetic, with squares written as squares. *)
Lemma cost_value_real (H desired : Transform R) (n : nat) (x : seq R) :
  size x = n ->
  cost_value id H desired n x
  = \sum_(i < 3) (translation H - translation desired) i 0 ^+ 2
    + 10%:R ^- 6 * \sum_(a <- x) a ^+ 2
    + 50%:R * orientation_error (linear desired) (linear H) ^+ 2.
Proof.
move=> size_x; rewrite /cost_value; cbv zeta beta; rewrite !map_mx_id //.
congr (_ + _ + _); first exact: regularization_sum.
by rewrite mulrAC -expr2 mulrC.
Qed.

Lemma translation_term_ge0 (d : 'cV[R]_3) : 0 <= \sum_(i < 3) d i 0 ^+ 2.
Proof. by apply: sumr_ge0 => i _; rewrite sqr_ge0. Qed.

Lemma regularization_term_ge0 (x : seq R) :
  0 <= 10%:R ^- 6 * \sum_(a <- x) a ^+ 2.
Proof.
apply: mulr_ge0; first exact: ltW tol_gt0.
by apply: sumr_ge0 => a _; rewrite sqr_ge0.
Qed.

Lemma orientation_term_ge0 (e : R) : 0 <= 50%:R * e ^+ 2.
Proof. by rewrite mulr_ge0 ?sqr_ge0 // ler0n. Qed.

(** In real arithmetic the cost is zero exactly when the translation is
    the desired one, the orientation error is zero and the configuration
    is the zero vector. *)
Lemma cost_value_eq0 (H desired : Transform R) (n : nat) (x : seq R) :
  size x = n ->
  (cost_value id H desired n x == 0)
  = [&& translation H == translation desired,
        x == nseq n 0
      & orientation_error (linear desired) (linear H) == 0].
Proof.
move=> size_x; rewrite cost_value_real //.
rewrite paddr_eq0 ?orientation_term_ge0 //.
  by rewrite addr_ge0 ?translation_term_ge0 ?regularization_term_ge0.
rewrite paddr_eq0 ?translation_term_ge0 ?regularization_term_ge0 //.
rewrite -andbA; congr [&& _, _ & _].
- rewrite -[LHS]/(\sum_i _ * _ == 0).
  rewrite sum_sq_eq0 -subr_eq0; apply/forallP/eqP => [d0|-> i].
    by apply/colP => i; rewrite [RHS]mxE; apply/eqP.
  by rewrite mxE.
- by rewrite mulf_eq0 (gt_eqF tol_gt0) /= sum_sq_seq_eq0 size_x.
- by rewrite mulf_eq0 sqrf_eq0 pnatr_eq0.
Qed.

(** The cost vanishes only at the origin of the configuration space: it
    is zero exactly when the pose of the target link is the desired one
    and every joint coordinate is zero. *)
Theorem cost_zero_iff (q_ : seq R) (m : RobotModel R)
    (source target : string) (desired : Transform R) :
  size q_ = n_q m ->
  is_rotation (linear desired) ->
  is_rotation (linear (forward_kinematics m q_ source target)) ->
  exists2 cost_val,
    cost id q_ m source target desired = Some cost_val
    & cost_val 0 0 = 0
      <-> forward_kinematics m q_ source target = desired
          /\ q_ = nseq (n_q m) 0.
Proof.
move=> size_q /andP[/eqP orthd _] /andP[/eqP orthc _].
rewrite costE //; eexists; first by [].
rewrite mxE; split=> [/eqP|[fk_eq q_eq]]; last first.
  apply/eqP; rewrite cost_value_eq0 // fk_eq eqxx -q_eq eqxx /=.
  by rewrite orientation_error_eq0.
rewrite cost_value_eq0 // orientation_error_eq0 //.
case: (forward_kinematics m q_ source target) => lin tr /=.
case: desired {orthd} => lin' tr' /=.
by case/and3P => /eqP -> /eqP q0 /eqP ->.
Qed.

(** The regularization makes the cost grow at least like the squared
    norm of the configuration, whatever the kinematics. *)
Theorem cost_regularization_bound (q_ : seq R) (m : RobotModel R)
    (source target : string) (desired : Transform R) :
  size q_ = n_q m ->
  exists2 cost_val,
    cost id q_ m source target desired = Some cost_val
    & 10%:R ^- 6 * \sum_(a <- q_) a ^+ 2 <= cost_val 0 0.
Proof.
move=> size_q; rewrite costE //; eexists; first by [].
rewrite mxE cost_value_real // -addrA addrCA lerDl.
by rewrite addr_ge0 ?translation_term_ge0 ?orientation_term_ge0.
Qed.

(** ** When the cost term is defined *)

(** [GetCost] returns exactly when the problem has a variable set named
    "configuration_vector" and that set holds as many values as the model
    of the cost term has joints. *)
Theorem GetCost_defined (c : IKCost) (vars : Composite) :
  isSome (GetCost c vars)
  = if GetComponent vars "configuration_vector"%string is Some v
    then size (GetValues v) == n_q (model c)
    else false.
Proof.
rewrite /GetCost; case: (GetComponent _ _) => [v|] //.
by rewrite /cost size_map; case: ifP.
Qed.

(** [FillJacobianBlock] returns in the same states as [GetCost], and for
    every other name of a variable set. *)
Theorem FillJacobianBlock_defined (c : IKCost) (vars : Composite)
    (var_set : string) (jac : Jacobian) :
  isSome (FillJacobianBlock c vars var_set jac)
  = if String.eqb var_set "configuration_vector"%string then
      if GetComponent vars "configuration_vector"%string is Some v
      then size (GetValues v) == n_q (model c)
      else false
    else true.
Proof.
case name_eq : (String.eqb var_set "configuration_vector"%string); last first.
  by rewrite /FillJacobianBlock name_eq.
move/String.eqb_eq: name_eq => ->.
case get_v : (GetComponent vars "configuration_vector"%string) => [v|];
  last by rewrite /FillJacobianBlock String.eqb_refl get_v.
case: (eqVneq (size (GetValues v)) (n_q (model c))) => [size_v|ne_size].
  by have [jac' -> _] := FillJacobianBlockE jac get_v size_v.
rewrite /FillJacobianBlock String.eqb_refl get_v /jacobian size_map.
case size_v : (size (GetValues v)) ne_size => [|k] ne_size.
  by case: (n_q (model c)) ne_size.
by rewrite /= /cost size_seed size_map size_v (negbTE ne_size).
Qed.

(** ** The gradient, term by term *)

Lemma grad_nat (n : nat) : dual_grad (n%:R : dual R) = 0.
Proof.
elim: n => [|n IHn] //.
by rewrite -addn1 natrD grad_add IHn add0r.
Qed.

Lemma grad_sub (a b : dual R) :
  dual_grad (a - b) = dual_grad a - dual_grad b.
Proof. by []. Qed.

Lemma val_sub (a b : dual R) : dual_val (a - b) = dual_val a - dual_val b.
Proof. exact: rmorphB. Qed.

Lemma grad_square (a : dual R) :
  dual_grad (a * a) = 2%:R * (dual_val a * dual_grad a).
Proof. by rewrite grad_mul [dual_grad a * _]mulrC -mulr2n -mulr_natl. Qed.

Lemma grad_weighted_square (a : dual R) (w : nat) :
  dual_grad (a * w%:R * a) = (2 * w)%:R * dual_val a * dual_grad a.
Proof.
rewrite mulrAC grad_mul grad_square val_mul val_nat grad_nat mulr0 add0r.
by rewrite natrM mulrAC -!mulrA.
Qed.

Lemma grad_regularization (x : seq R) (i : nat) :
  (i < size x)%N ->
  let y := seed i [seq lift a | a <- x] in
  dual_grad (\sum_(k < size x) nth 0 y k * lift (10%:R ^- 6) * nth 0 y k)
  = 2%:R * 10%:R ^- 6 * nth 0 x i.
Proof.
move=> lt_i y; rewrite grad_sum.
rewrite -(sum_indicator (fun k => 2%:R * 10%:R ^- 6 * nth 0 x k) lt_i).
apply: eq_bigr => k _.
rewrite mulrAC grad_mul grad_square val_mul dual_val_lift grad_lift.
rewrite val_nth_seed grad_nth_seed // mulr0 add0r.
by rewrite -!mulrA; congr (_ * _); rewrite [RHS]mulrC -mulrA.
Qed.

(** The derivative part of the cost at a configuration seeded in entry
    [i]: the translation term and the orientation term contribute through
    the derivative parts of the pose [H], the regularization contributes
    [2 * 1e-6 * x_i]. *)
Lemma grad_cost_value (H : Transform (dual R)) (desired : Transform R)
    (x : seq R) (i : nat) :
  (i < size x)%N ->
  let e := orientation_error (map_mx (@lift R) (linear desired)) (linear H) in
  dual_grad (cost_value (@lift R) H desired (size x)
               (seed i [seq lift a | a <- x]))
  = 2%:R * \sum_(j < 3) (dual_val (translation H j 0)
                         - translation desired j 0)
                        * dual_grad (translation H j 0)
    + 2%:R * 10%:R ^- 6 * nth 0 x i
    + 100%:R * dual_val e * dual_grad e.
Proof.
move=> lt_i e; rewrite /cost_value; cbv zeta; rewrite -/e.
rewrite 2!grad_add grad_regularization // grad_weighted_square.
congr (_ + _ + _); rewrite grad_sum mulr_sumr; apply: eq_bigr => j _.
rewrite grad_square; congr (_ * (_ * _)).
  by rewrite !mxE val_sub dual_val_lift.
by rewrite !mxE grad_sub grad_lift subr0.
Qed.

(** Whatever the kinematics, column [i] of the block that
    [FillJacobianBlock] writes is
    [2 * sum_j (p_j - p*_j) * dp_j + 2 * 1e-6 * q_i + 100 * e * de],
    where [p], [e] are the value parts and [dp], [de] the derivative
    parts of the translation and of the orientation error of the pose at
    the configuration seeded in entry [i], and [p*] is the desired
    translation. *)
Theorem FillJacobianBlock_gradient_terms (c : IKCost) (vars : Composite)
    (v : IKVariables) (jac : Jacobian) :
  GetComponent vars "configuration_vector"%string = Some v ->
  size (GetValues v) = n_q (model c) ->
  let q_auto := [seq lift x | x <- GetValues v] in
  exists2 jac',
    FillJacobianBlock c vars "configuration_vector"%string jac = Some jac'
    & forall i, (i < n_q (model c))%N ->
        let H := forward_kinematics (model c) (seed i q_auto)
                   (source_link_name c) (target_link_name c) in
        let e := orientation_error
                   (map_mx (@lift R) (linear (desired_pose c))) (linear H) in
        coeff jac' 0 i
        = 2%:R * \sum_(j < 3) (dual_val (translation H j 0)
                               - translation (desired_pose c) j 0)
                              * dual_grad (translation H j 0)
          + 2%:R * 10%:R ^- 6 * nth 0 (GetValues v) i
          + 100%:R * dual_val e * dual_grad e.
Proof.
move=> get_v size_v q_auto.
have [jac' fill [_ _ written _]] := FillJacobianBlockE jac get_v size_v.
exists jac'; first exact: fill.
move=> i lt_i H e; rewrite written // -size_v grad_cost_value //.
by rewrite size_v.
Qed.

(** At a configuration where the pose of the target link is the desired
    one, the pose terms of the cost are stationary and the gradient is
    that of the regularization alone: column [i] holds [2 * 1e-6 * q_i]. *)
Theorem FillJacobianBlock_at_target (c : IKCost) (vars : Composite)
    (v : IKVariables) (jac : Jacobian) :
  GetComponent vars "configuration_vector"%string = Some v ->
  size (GetValues v) = n_q (model c) ->
  is_rotation (linear (desired_pose c)) ->
  let q_auto := [seq lift x | x <- GetValues v] in
  (forall i, (i < n_q (model c))%N ->
     Transform_val (forward_kinematics (model c) (seed i q_auto)
                      (source_link_name c) (target_link_name c))
     = desired_pose c) ->
  exists2 jac',
    FillJacobianBlock c vars "configuration_vector"%string jac = Some jac'
    & forall i, (i < n_q (model c))%N ->
        coeff jac' 0 i = 2%:R * 10%:R ^- 6 * nth 0 (GetValues v) i.
Proof.
move=> get_v size_v /andP[/eqP orthd _] q_auto at_target.
have [jac' fill [_ _ written _]] := FillJacobianBlockE jac get_v size_v.
exists jac'; first exact: fill.
move=> i lt_i; rewrite written //.
have lt_i' : (i < size (GetValues v))%N by rewrite size_v.
rewrite -size_v (grad_cost_value _ _ lt_i') -/q_auto.
rewrite val_orientation_error map_mx_id //.
move: (at_target i lt_i); set H := forward_kinematics _ _ _ _.
rewrite /Transform_val; case: (desired_pose c) orthd => lin tr /= orthd.
case=> lin_eq tr_eq.
have -> : orientation_error lin (map_mx (@dual_val R) (linear H)) = 0.
  by apply/eqP; rewrite lin_eq orientation_error_eq0.
rewrite mulr0 mul0r addr0 big1 ?mulr0 ?add0r // => j _.
by rewrite val_entry tr_eq subrr mul0r.
Qed.

(** ** The range of the orientation error *)

(** The orientation error does not depend on which of the two matrices is
    the desired one. *)
Theorem orientation_error_sym (D : comNzRingType) (A B : 'M[D]_3) :
  orientation_error A B = orientation_error B A.
Proof.
rewrite /orientation_error /= -mxtrace_tr linearB /= trmx1.
by rewrite trmx_mul trmxK.
Qed.

Lemma orientation_error_trace (A B : 'M[R]_3) :
  orientation_error A B = 3%:R - \tr (A *m B^T).
Proof. by rewrite /orientation_error /= raddfB /= mxtrace1. Qed.

Lemma orientation_error_ge0 (A B : 'M[R]_3) :
  A *m A^T = 1%:M -> B *m B^T = 1%:M -> 0 <= orientation_error A B.
Proof.
move=> orthA orthB; rewrite -(pmulrn_lge0 _ (ltn0Sn 1)).
rewrite orientation_error_distance //.
by apply: sumr_ge0 => i _; apply: sumr_ge0 => j _; rewrite sqr_ge0.
Qed.

Lemma sum3 (F : 'I_3 -> R) : \sum_i F i = F 0 + F 1 + F 2%:R.
Proof.
rewrite !big_ord_recl big_ord0 addr0 addrA.
by congr (F _ + F _ + F _); apply/val_inj.
Qed.

Lemma det2 (A : 'M[R]_2) : \det A = A 0 0 * A 1 1 - A 0 1 * A 1 0.
Proof.
rewrite (expand_det_row _ ord0) !big_ord_recl big_ord0 addr0 /cofactor.
rewrite !det_mx11 !mxE /= expr0 mul1r /bump /= expr1 mulN1r mulrN.
by congr (A _ _ * A _ _ - A _ _ * A _ _); apply/val_inj.
Qed.

Lemma cofactor00 (M : 'M[R]_3) :
  cofactor M 0 0 = M 1 1 * M 2%:R 2%:R - M 1 2%:R * M 2%:R 1.
Proof.
rewrite /cofactor det2 !mxE /= expr0 mul1r.
by congr (M _ _ * M _ _ - M _ _ * M _ _); apply/val_inj.
Qed.

Lemma cofactor11 (M : 'M[R]_3) :
  cofactor M 1 1 = M 0 0 * M 2%:R 2%:R - M 0 2%:R * M 2%:R 0.
Proof.
rewrite /cofactor det2 !mxE /= -signr_odd /= expr0 mul1r.
by congr (M _ _ * M _ _ - M _ _ * M _ _); apply/val_inj.
Qed.

Lemma cofactor22 (M : 'M[R]_3) :
  cofactor M 2%:R 2%:R = M 0 0 * M 1 1 - M 0 1 * M 1 0.
Proof.
rewrite /cofactor det2 !mxE /= -signr_odd /= expr0 mul1r.
by congr (M _ _ * M _ _ - M _ _ * M _ _); apply/val_inj.
Qed.

(** For a 3 x 3 matrix the square of the trace is the trace of the
    square plus twice the trace of the adjugate. *)
Lemma trace_sq (M : 'M[R]_3) :
  \tr M ^+ 2 = \tr (M *m M) + (\tr (\adj M)) *+ 2.
Proof.
rewrite /mxtrace !sum3 !mxE !sum3 cofactor00 cofactor11 cofactor22.
move: (M 0 0) (M 0 1) (M 0 2%:R) (M 1 0) (M 1 1) (M 1 2%:R)
      (M 2%:R 0) (M 2%:R 1) (M 2%:R 2%:R) => a b c d e f g h k.
by rewrite -mulr_natl; ring.
Qed.

Lemma tr_orth (A : 'M[R]_3) : A *m A^T = 1%:M -> A^T *m A^T^T = 1%:M.
Proof. by move=> orthA; rewrite trmxK; apply: mulmx1C. Qed.

(** The adjugate of a rotation is its transpose. *)
Lemma adj_rotation (M : 'M[R]_3) : is_rotation M -> \adj M = M^T.
Proof.
case/andP=> /eqP orthM /eqP det1.
rewrite -[LHS]mul1mx -(mulmx1C orthM) -mulmxA mul_mx_adj det1.
by rewrite mulmx1.
Qed.

(** The trace of a rotation is at least [-1]. *)
Lemma rotation_trace_ge (M : 'M[R]_3) : is_rotation M -> -1 <= \tr M.
Proof.
move=> rotM; have /andP[/eqP orthM _] := rotM.
have le3 : \tr (M *m M) <= 3%:R.
  have := orientation_error_ge0 orthM (tr_orth orthM).
  by rewrite orientation_error_trace trmxK subr_ge0.
have := trace_sq M; rewrite adj_rotation // mxtrace_tr => sq.
have : (\tr M + 1) * (\tr M - 3%:R) <= 0.
  have -> : (\tr M + 1) * (\tr M - 3%:R)
            = \tr M ^+ 2 - (\tr M) *+ 2 - 3%:R.
    by rewrite -mulr_natl; ring.
  by rewrite sq addrK subr_le0.
case: (ltrP (\tr M) (-1)) => // lt1.
have lt3 : \tr M - 3%:R < 0.
  rewrite subr_lt0; apply: lt_trans lt1 _.
  by apply: lt_trans (ltrN10 R) _; rewrite ltr0n.
rewrite -subr_lt0 opprK in lt1.
by rewrite leNgt nmulr_rgt0 // lt3.
Qed.

Lemma rotation_mul (A B : 'M[R]_3) :
  is_rotation A -> is_rotation B -> is_rotation (A *m B^T).
Proof.
case/andP=> /eqP orthA /eqP detA /andP[/eqP orthB /eqP detB].
rewrite /is_rotation det_mulmx det_tr detA detB mulr1 eqxx andbT.
by rewrite trmx_mul trmxK mulmxA -(mulmxA A) (mulmx1C orthB) mulmx1 orthA.
Qed.

(** Between two rotations the orientation error lies between 0 and 4. *)
Theorem orientation_error_range (R_desired R_current : 'M[R]_3) :
  is_rotation R_desired -> is_rotation R_current ->
  0 <= orientation_error R_desired R_current <= 4%:R.
Proof.
move=> rotd rotc; apply/andP; split.
  case/andP: rotd rotc => /eqP orthd _ /andP[/eqP orthc _].
  exact: orientation_error_ge0.
rewrite orientation_error_trace lerBlDr -lerBlDl.
have -> : 3%:R - 4%:R = -1 :> R.
  by rewrite -[4%:R]natr1 opprD addrA subrr add0r.
exact: rotation_trace_ge (rotation_mul rotd rotc).
Qed.


(** ** More on the example constraint *)

(** [IKConstraint::FillJacobianBlock] for "var_set1": it needs one value
    in the variable set and a block with a first row and two columns.  It
    writes entries [(0, 0)] and [(0, 1)] and keeps the dimensions and
    every other entry of the block. *)
Lemma IKConstraint_FillJacobianBlockE (c : IKConstraint) (vars : Composite)
    (v : IKVariables) (jac_block : Jacobian) :
  GetComponent vars "var_set1"%string = Some v ->
  (0 < size (GetValues v))%N ->
  (0 < sp_rows jac_block)%N -> (1 < sp_cols jac_block)%N ->
  exists2 jac_block',
    IKConstraint_FillJacobianBlock c vars "var_set1"%string jac_block
    = Some jac_block'
    & [/\ sp_rows jac_block' = sp_rows jac_block,
          sp_cols jac_block' = sp_cols jac_block,
          coeff jac_block' 0 0 = 2%:R * nth 0 (GetValues v) 0,
          coeff jac_block' 0 1 = 1
        & forall r k, ~~ ((r == 0%N) && (k < 2)%N) ->
            coeff jac_block' r k = coeff jac_block r k].
Proof.
move=> get_v lt0 rows_pos cols_gt1.
have cols_pos : (0 < sp_cols jac_block)%N by apply: ltnW.
rewrite /IKConstraint_FillJacobianBlock get_v /= vec_get_inside //.
case set0 : (coeffRef_set jac_block 0 0 _) => [jac1|]; last first.
  by move: set0; rewrite /coeffRef_set rows_pos cols_pos.
have [rows1 cols1 c00 other1] := coeff_coeffRef_set set0.
case set1 : (coeffRef_set jac1 0 1 1) => [jac2|]; last first.
  by move: set1; rewrite /coeffRef_set rows1 cols1 rows_pos cols_gt1.
have [rows2 cols2 c01 other2] := coeff_coeffRef_set set1.
exists jac2 => //; split; rewrite ?rows2 ?cols2 //.
  by rewrite other2.
move=> r k outside; rewrite other2 ?other1 //.
  by apply: contra outside => /eqP[-> ->].
by apply: contra outside => /eqP[-> ->].
Qed.

(** C10, as the code has it: [GetValues] reads components 0 and 1 of the
    values [x] of the variable set "var_set1" and is defined exactly when
    [x] has at least two entries; it then gives the residual
    [x0^2 + x1].  [FillJacobianBlock] reads component 0 only: it is
    defined exactly when [x] has at least one entry and the block has a
    first row and two columns, and it then writes the entries [2*x0] and
    [1].  In every other case the access is out of bounds. *)
Theorem IKConstraint_components_read (name : string) (vars : Composite)
    (v : IKVariables) (jac_block : Jacobian) :
  GetComponent vars "var_set1"%string = Some v ->
  let c := IKConstraint_new name in
  let x := GetValues v in
  let x0 := nth 0 x 0 in
  let x1 := nth 0 x 1 in
  IKConstraint_GetValues c vars
  = (if (2 <= size x)%N then Some [:: x0 ^+ 2 + x1] else None)
  /\ if [&& (1 <= size x)%N, (0 < sp_rows jac_block)%N
          & (1 < sp_cols jac_block)%N]
     then exists2 jac_block',
            IKConstraint_FillJacobianBlock c vars "var_set1"%string
              jac_block
            = Some jac_block'
            & coeff jac_block' 0 0 = 2%:R * x0 /\ coeff jac_block' 0 1 = 1
     else IKConstraint_FillJacobianBlock c vars "var_set1"%string jac_block
          = None.
Proof.
move=> get_v c x x0 x1; split.
  rewrite /IKConstraint_GetValues get_v /vec_get -/x /x0 /x1.
  by case: (size x) => [|[|k]].
case: ifP => [/and3P[lt0 rows_pos cols_gt1]|defined].
  have [jac_block' fill [_ _ c00 c01 _]] :=
    IKConstraint_FillJacobianBlockE c get_v lt0 rows_pos cols_gt1.
  by exists jac_block'.
move: defined; rewrite /IKConstraint_FillJacobianBlock get_v /= /vec_get -/x.
case: (size x) => [|k] //=.
rewrite /coeffRef_set; case: (sp_rows jac_block) => [|r] //=.
by case: (sp_cols jac_block) => [|[|l]].
Qed.

(** The block written by the constraint: two entries are set, and the
    rest of the block, dimensions included, is kept, since the block is
    not resized. *)
Theorem IKConstraint_FillJacobianBlock_frame (c : IKConstraint)
    (vars : Composite) (v : IKVariables) (jac_block : Jacobian) :
  GetComponent vars "var_set1"%string = Some v ->
  (0 < size (GetValues v))%N ->
  (0 < sp_rows jac_block)%N -> (1 < sp_cols jac_block)%N ->
  exists2 jac_block',
    IKConstraint_FillJacobianBlock c vars "var_set1"%string jac_block
    = Some jac_block'
    & [/\ sp_rows jac_block' = sp_rows jac_block,
          sp_cols jac_block' = sp_cols jac_block,
          coeff jac_block' 0 0 = 2%:R * nth 0 (GetValues v) 0,
          coeff jac_block' 0 1 = 1
        & forall r k, ~~ ((r == 0%N) && (k < 2)%N) ->
            coeff jac_block' r k = coeff jac_block r k].
Proof. exact: IKConstraint_FillJacobianBlockE. Qed.

(** When the example constraint is defined: [GetValues] needs two values
    in the variable set "var_set1"; [FillJacobianBlock] needs one value
    and a block with a first row and two columns, and does nothing for
    any other name. *)
Theorem IKConstraint_defined (name : string) (vars : Composite)
    (var_set : string) (jac_block : Jacobian) :
  let c := IKConstraint_new name in
  let n := if GetComponent vars "var_set1"%string is Some v
           then size (GetValues v) else 0%N in
  isSome (IKConstraint_GetValues c vars) = (1 < n)%N
  /\ isSome (IKConstraint_FillJacobianBlock c vars var_set jac_block)
     = if String.eqb var_set "var_set1"%string
       then [&& (0 < n)%N, (0 < sp_rows jac_block)%N
              & (1 < sp_cols jac_block)%N]
       else true.
Proof.
move=> c n; split.
  rewrite /IKConstraint_GetValues /n.
  case: (GetComponent _ _) => [v|] //; rewrite /vec_get.
  by case: (size (GetValues v)) => [|[|k]].
rewrite /IKConstraint_FillJacobianBlock /n.
case: (String.eqb _ _) => //.
case: (GetComponent _ _) => [v|] //; rewrite /vec_get.
case: (size (GetValues v)) => [|k] //=.
rewrite /coeffRef_set; case: (sp_rows jac_block) => [|r] //=.
by case: (sp_cols jac_block) => [|[|l]].
Qed.

(** The Jacobian of the constraint is the derivative of its value: moving
    the first two values by [h0] and [h1] changes the value by the block
    applied to [(h0, h1)], up to the square of [h0]. *)
Theorem IKConstraint_jacobian_linearizes (name : string)
    (vars vars' : Composite) (v v' : IKVariables) (x0 x1 h0 h1 : R)
    (rest rest' : seq R) (jac_block : Jacobian) :
  GetComponent vars "var_set1"%string = Some v ->
  GetValues v = x0 :: x1 :: rest ->
  GetComponent vars' "var_set1"%string = Some v' ->
  GetValues v' = x0 + h0 :: x1 + h1 :: rest' ->
  (0 < sp_rows jac_block)%N -> (1 < sp_cols jac_block)%N ->
  let c := IKConstraint_new name in
  exists g g' jac_block',
    [/\ IKConstraint_GetValues c vars = Some [:: g],
        IKConstraint_GetValues c vars' = Some [:: g'],
        IKConstraint_FillJacobianBlock c vars "var_set1"%string jac_block
        = Some jac_block'
      & g' = g + coeff jac_block' 0 0 * h0 + coeff jac_block' 0 1 * h1
             + h0 ^+ 2].
Proof.
move=> get_v val_v get_v' val_v' rows_pos cols_gt1 c.
have lt0 : (0 < size (GetValues v))%N by rewrite val_v.
have [jac_block' fill [_ _ c00 c01 _]] :=
  IKConstraint_FillJacobianBlockE c get_v lt0 rows_pos cols_gt1.
exists (x0 ^+ 2 + x1), ((x0 + h0) ^+ 2 + (x1 + h1)), jac_block'.
split=> //.
- by rewrite /IKConstraint_GetValues get_v val_v.
- by rewrite /IKConstraint_GetValues get_v' val_v'.
- by rewrite c00 c01 val_v /=; ring.
Qed.

(** ** The problem the driver builds *)

Lemma GetBoundsE (v : IKVariables) :
  GetBounds v = Some (nseq (GetRows v) (mkBounds (- M_PI) M_PI)).
Proof.
rewrite /GetBounds.
have le_n : (0 + GetRows v <= size (nseq (GetRows v) Bounds_default))%N.
  by rewrite size_nseq.
have [r -> [size_r nth_r]] := GetBounds_loop_spec le_n.
congr Some; apply: (eq_from_nth (x0 := mkBounds (- M_PI) M_PI)).
  by rewrite size_r !size_nseq.
move=> j; rewrite size_r size_nseq nth_r nth_nseq add0n /= => lt_j.
by rewrite lt_j nth_nseq lt_j.
Qed.

(** The problem handed to the solver has no constraint set; its one
    variable set starts at [q0], whatever the length of [q0], and is
    bounded by [n_q] pairs [(-M_PI, M_PI)]; its one cost term can be
    evaluated at the start exactly when [q0] has as many entries as the
    cast model has joints. *)
Theorem inverse_kinematics_initial_problem (model_ : RobotModel R)
    (source target : string) (desired : Transform R) (q0 : seq R) :
  let nlp := (inverse_kinematics_setup model_ source target desired q0).2 in
  [/\ constraints_ nlp = [::],
      [seq GetBounds v | v <- GetOptVariables nlp]
      = [:: Some (nseq (n_q model_) (mkBounds (- M_PI) M_PI))],
      Composite_GetValues (GetOptVariables nlp) = q0
    & [seq isSome (GetCost c (GetOptVariables nlp)) | c <- costs_ nlp]
      = [:: size q0 == n_q (cast model_)]].
Proof.
move=> nlp; split=> //.
- by rewrite /= GetBoundsE.
- by rewrite /Composite_GetValues /= cats0.
- by rewrite /= /GetCost /= /cost size_map; case: ifP.
Qed.

End InverseKinematics.

(** * A test rig

    The parameters of the development are instantiated on a gantry: a
    chain of prismatic joints that all slide along the x axis, over the
    rationals.  Its target link sits at the sum of the joint positions
    past a fixed offset, in the orientation of the source link.  When it
    is asked about a name that is not one of its links it answers with
    the identity transform. *)

Record Gantry (S : Type) : Type := mkGantry {
  gantry_n_q : nat;
  gantry_links : seq string;
  gantry_offset : S
}.

Definition gantry_cast (m : Gantry rat) : Gantry (dual rat) :=
  mkGantry (gantry_n_q m) (gantry_links m) (lift (gantry_offset m)).

Definition gantry_has_link (S : Type) (m : Gantry S) (name : string) : bool :=
  has (String.eqb name) (gantry_links m).

Definition gantry_forward_kinematics (S : comNzRingType) (m : Gantry S)
    (x : seq S) (source target : string) : Transform S :=
  if gantry_has_link m source && gantry_has_link m target then
    mkTransform 1%:M
      (\col_i (if (i : nat) == 0%N then gantry_offset m + \sum_(a <- x) a
               else 0))
  else mkTransform 1%:M 0.




Definition gantry_links2 : seq string := [:: "base"%string; "tool"%string].

(** Two joints, no offset. *)
Definition gantry2 : Gantry rat := mkGantry 2 gantry_links2 0.

(** The pose at the origin of the source frame, in its orientation. *)
Definition origin_pose : Transform rat := mkTransform 1%:M 0.

(** The variable set and the cost term of the two-joint gantry, at the
    configuration [(1, 2)]. *)
Definition gantry2_variables : IKVariables rat :=
  IKVariables_new (@gantry_n_q) "configuration_vector"%string gantry2
    [:: 1; 2].

Definition gantry2_cost : IKCost rat Gantry :=
  IKCost_new "IK_cost"%string (gantry_cast gantry2) "base"%string
    "tool"%string origin_pose.

(** The half turn about the z axis. *)
Definition half_turn_z : 'M[rat]_3 :=
  diag_mx (\row_i (if (i : nat) == 2 then 1 else -1)).

(** The pose one unit along x from the origin of the source frame, turned
    by half a turn about z. *)
Definition turned_pose : Transform rat :=
  mkTransform half_turn_z (\col_i (if (i : nat) == 0%N then 1 else 0)).

(** ** Rotations *)

Lemma is_rotation1 : is_rotation (1%:M : 'M[rat]_3).
Proof. by rewrite /is_rotation trmx1 mulmx1 det1 !eqxx. Qed.

Lemma is_rotation_half_turn_z : is_rotation half_turn_z.
Proof.
rewrite /is_rotation /half_turn_z tr_diag_mx mulmx_diag det_diag.
apply/andP; split.
  rewrite -[1%:M]diag_const_mx; apply/eqP; congr diag_mx.
  apply/rowP => i; rewrite !mxE; case: ifP => _; first by rewrite mulr1.
  by rewrite mulrNN mulr1.
by rewrite !big_ord_recl big_ord0 !mxE /= !mulr1 mulrNN mulr1.
Qed.

(** The identity and the half turn about z: two rotations, one claim. *)
Lemma orientation_error_zero_iff_witness :
  orientation_error (1%:M : 'M[rat]_3) half_turn_z = 0
  <-> 1%:M = half_turn_z.
Proof.
exact: (orientation_error_zero_iff is_rotation1 is_rotation_half_turn_z).
Defined.

(** ** The cost on the gantry *)

Lemma orientation_error_origin (S : comNzRingType) (inj : rat -> S) :
  inj 0 = 0 -> inj 1 = 1 ->
  orientation_error (map_mx inj (1%:M : 'M[rat]_3)) 1%:M = 0.
Proof.
move=> inj0 inj1; rewrite /orientation_error /= trmx1 mulmx1.
have -> : map_mx inj (1%:M : 'M[rat]_3) = 1%:M.
  by apply/matrixP => i j; rewrite !mxE; case: (i == j).
by rewrite subrr mxtrace0.
Qed.

(** With the origin as the desired pose and both links known, the cost
    on the gantry is the squared distance of the target link from the
    origin plus the regularization sum. *)
Lemma gantry_cost_value (S : comNzRingType) (inj : rat -> S) (m : Gantry S)
    (x : seq S) (n : nat) (source target : string) :
  inj 0 = 0 -> inj 1 = 1 ->
  gantry_has_link m source -> gantry_has_link m target ->
  cost_value inj (gantry_forward_kinematics m x source target)
    origin_pose n x
  = (gantry_offset m + \sum_(a <- x) a) ^+ 2
    + \sum_(i < n) nth 0 x i * inj (10%:R ^- 6) * nth 0 x i.
Proof.
move=> inj0 inj1 has_s has_t.
rewrite /cost_value /gantry_forward_kinematics has_s has_t /=.
rewrite orientation_error_origin // !mul0r addr0; congr (_ + _).
have -> : map_mx inj (0 : 'cV[rat]_3) = 0.
  by apply/matrixP => i j; rewrite !mxE.
rewrite subr0 !big_ord_recl big_ord0 !mxE /= !mulr0 !addr0.
by rewrite expr2.
Qed.


(** ** The gradient on the gantry *)

Lemma double_plus (a b : rat) : a * 1 + 1 * a + b = 2%:R * a + b.
Proof. by ring. Qed.

(** On the gantry, with the origin as the desired pose, the cost is
    [(offset + q_0 + ... )^2 + 1e-6 * (q_0^2 + ...)].  The block that
    [FillJacobianBlock] writes holds its partial derivatives:
    [2 * (offset + q_0 + ...) + 2 * 1e-6 * q_i] in column [i]. *)
Theorem gantry_jacobian_is_gradient (m : Gantry rat) (x : seq rat)
    (source target : string) (jac : Jacobian rat) :
  size x = gantry_n_q m ->
  gantry_has_link m source -> gantry_has_link m target ->
  let c :=
    IKCost_new "IK_cost"%string (gantry_cast m) source target origin_pose in
  let vars :=
    [:: IKVariables_new (@gantry_n_q) "configuration_vector"%string m x] in
  exists2 jac',
    FillJacobianBlock (@gantry_n_q) gantry_forward_kinematics c vars
      "configuration_vector"%string jac = Some jac'
    & forall i, (i < size x)%N ->
        coeff jac' 0 i
        = 2%:R * (gantry_offset m + \sum_(a <- x) a)
          + 2%:R * 10%:R ^- 6 * nth 0 x i.
Proof.
move=> size_x has_s has_t c vars.
have get_v : GetComponent vars "configuration_vector"%string
             = Some (IKVariables_new (@gantry_n_q)
                       "configuration_vector"%string m x) by [].
have [jac' fill [_ _ written _]] :=
  FillJacobianBlockE (n_q := @gantry_n_q) gantry_forward_kinematics
    (c := c) jac get_v size_x.
exists jac'; first exact: fill.
move=> i lt_i; rewrite written; first by move: lt_i; rewrite size_x.
rewrite (gantry_cost_value _ _ (erefl : lift 0 = 0) (erefl : lift 1 = 1)
           (has_s : gantry_has_link (gantry_cast m) source)
           (has_t : gantry_has_link (gantry_cast m) target)).
have -> : gantry_offset (gantry_cast m) = lift (gantry_offset m) by [].
have -> : gantry_n_q (model c) = size x by rewrite size_x.
set y := seed i _.
have size_y : size y = size x by rewrite size_seed size_map.
have val_y k : dual_val (nth 0 y k) = nth 0 x k by exact: val_nth_seed.
have grad_y k : dual_grad (nth 0 y k) = (k == i)%:R.
  exact: grad_nth_seed.
rewrite grad_add expr2 grad_mul grad_add !grad_sum !val_add val_sum.
rewrite dual_val_lift grad_lift add0r.
have -> : \sum_(a <- y) dual_val a = \sum_(a <- x) a.
  rewrite (big_nth 0) [RHS](big_nth 0) size_y.
  by apply: eq_bigr => k _; rewrite val_y.
have -> : \sum_(a <- y) dual_grad a = 1.
  rewrite (big_nth 0) size_y big_mkord.
  rewrite -[RHS](sum_indicator (fun=> 1) lt_i).
  by apply: eq_bigr => k _; rewrite grad_y mul1r.
have -> : \sum_(k < size x)
             dual_grad (nth 0 y k * lift (10%:R ^- 6) * nth 0 y k)
          = 2%:R * 10%:R ^- 6 * nth 0 x i.
  rewrite -(sum_indicator (fun k => 2%:R * 10%:R ^- 6 * nth 0 x k) lt_i).
  apply: eq_bigr => k _.
  rewrite 2!grad_mul val_mul val_y grad_y grad_lift dual_val_lift.
  move: (10%:R ^- 6 : rat) ((k == i :> nat)%:R : rat) (nth 0 x k) => e b a.
  by ring.
exact: double_plus.
Qed.

(** The derivative part of the cost on the gantry, with the origin as the
    desired pose, at a configuration seeded in entry [i]. *)
Lemma gantry_grad_cost_value (m : Gantry rat) (x : seq rat) (i : nat)
    (source target : string) :
  (i < size x)%N ->
  gantry_has_link m source -> gantry_has_link m target ->
  let y := seed i [seq lift a | a <- x] in
  dual_grad
    (cost_value (@lift rat)
       (gantry_forward_kinematics (gantry_cast m) y source target)
       origin_pose (size x) y)
  = 2%:R * (gantry_offset m + \sum_(a <- x) a)
    + 2%:R * 10%:R ^- 6 * nth 0 x i.
Proof.
move=> lt_i has_s has_t y.
have has_s' : gantry_has_link (gantry_cast m) source by [].
have has_t' : gantry_has_link (gantry_cast m) target by [].
rewrite (grad_cost_value _ _ lt_i) -/y /gantry_forward_kinematics has_s' has_t'.
rewrite ![linear _]/= [translation _]/=.
rewrite (orientation_error_origin (erefl : lift 0 = 0 :> dual rat)
           (erefl : lift 1 = 1 :> dual rat)).
rewrite -[RHS]addr0; congr (_ + _ + _).
congr (_ * _).
rewrite big_ord_recl !mxE [translation _]/=.
rewrite [(_ : nat) == _]/= eqxx subr0 [X in _ + X]big1 ?addr0.
  by move=> j _; rewrite !mxE /= mulr0.
rewrite val_add grad_add dual_val_lift grad_lift add0r val_sum grad_sum.
have -> : \sum_(a <- y) dual_val a = \sum_(a <- x) a.
  rewrite (big_nth 0) [RHS](big_nth 0) size_seed size_map.
  by apply: eq_bigr => k _; rewrite val_nth_seed.
have -> : \sum_(a <- y) dual_grad a = 1.
  rewrite (big_nth 0) size_seed size_map big_mkord.
  rewrite -[RHS](sum_indicator (fun=> 1) lt_i).
  by apply: eq_bigr => k _; rewrite grad_nth_seed // mul1r.
by rewrite mulr1.
Qed.

(** The value part of the kinematics of the cast gantry is the kinematics
    of the gantry. *)
Lemma gantry_forward_kinematics_val (m : Gantry rat) (x : seq rat)
    (source target : string) :
  Transform_val
    (gantry_forward_kinematics (gantry_cast m) [seq lift a | a <- x]
       source target)
  = gantry_forward_kinematics m x source target.
Proof.
rewrite /gantry_forward_kinematics /Transform_val.
have -> : gantry_has_link (gantry_cast m) source = gantry_has_link m source.
  by [].
have -> : gantry_has_link (gantry_cast m) target = gantry_has_link m target.
  by [].
case: ifP => _ /=; congr mkTransform.
- by apply/matrixP => j k; rewrite !mxE; case: (j == k).
- apply/matrixP => j k; rewrite !mxE; case: ifP => // _.
  by rewrite val_add val_sum big_map.
- by apply/matrixP => j k; rewrite !mxE; case: (j == k).
- by apply/matrixP => j k; rewrite !mxE.
Qed.

(** Arithmetic on the two-joint gantry at [(1, 2)], for any weight [d]. *)
Lemma gantry2_value (d : rat) :
  (0 + (1 + (2%:R + 0))) ^+ 2 + (1 * d * 1 + (2%:R * d * 2%:R + 0))
  = 9%:R + d * 5%:R.
Proof. by ring. Qed.

(** ** The claims on the gantry *)

(** C1 at the configuration [(1, 2)] of the two-joint gantry, in real
    arithmetic, with [turned_pose] as the desired pose.  The target link
    is at [(3, 0, 0)] in the orientation of the source link, so the
    translation term is [(3 - 1)^2 = 4], the regularization term is
    [1e-6 * (1 + 4)] and, the orientation error being [4], the
    orientation term is [4 * 50 * 4 = 800]. *)
Lemma cost_sum_of_three_terms_witness :
  cost (@gantry_n_q) gantry_forward_kinematics id [:: 1; 2] gantry2
    "base"%string "tool"%string turned_pose
  = Some (const_mx (4%:R + 10%:R ^- 6 * 5%:R + 800%:R)).
Proof.
have -> :=
  cost_sum_of_three_terms (n_q := @gantry_n_q) gantry_forward_kinematics id
    "base"%string "tool"%string turned_pose
    (erefl : size [:: 1; 2 : rat] = gantry_n_q gantry2).
do 2!apply: f_equal.
apply: f_equal2; first apply: f_equal2.
- rewrite mulmx1 mxE !big_ord_recl big_ord0 !mxE /gantry_forward_kinematics /=.
  by rewrite !big_cons big_nil; ring.
- rewrite -scalemxAr mulmx1 -scalemxAl mxE; congr (_ * _).
  by rewrite mxE !big_ord_recl big_ord0 !mxE /=; ring.
- rewrite /gantry_forward_kinematics /= trmx1 mulmx1.
  by rewrite /mxtrace !big_ord_recl big_ord0 !mxE /= !mulr1n; ring.
Defined.

(** C2 on the two-joint gantry at [(1, 2)], with the origin as the
    desired pose.  The cost is [(q_0 + q_1)^2 + 1e-6 * (q_0^2 + q_1^2)]:
    its value is [9 + 1e-6 * 5], and the block is the row of its two
    partial derivatives, [2 * 3 + 2e-6 * 1] and [2 * 3 + 2e-6 * 2]. *)
Lemma FillJacobianBlock_forward_mode_witness :
  GetCost (@gantry_n_q) gantry_forward_kinematics gantry2_cost
    [:: gantry2_variables]
  = Some (9%:R + 10%:R ^- 6 * 5%:R)
  /\ exists2 jac',
       FillJacobianBlock (@gantry_n_q) gantry_forward_kinematics
         gantry2_cost [:: gantry2_variables] "configuration_vector"%string
         (mkSparse 0 0 [::])
       = Some jac'
       & [/\ sp_rows jac' = 1%N, sp_cols jac' = 2%N,
             coeff jac' 0 0 = 2%:R * 3%:R + 2%:R * 10%:R ^- 6 * 1
           & coeff jac' 0 1 = 2%:R * 3%:R + 2%:R * 10%:R ^- 6 * 2%:R].
Proof.
have [[F f_q ->] [jac' fill [rows cols written _]]] :=
  FillJacobianBlock_forward_mode (n_q := @gantry_n_q)
    gantry_forward_kinematics (c := gantry2_cost)
    (vars := [:: gantry2_variables]) (mkSparse 0 0 [::]) erefl erefl.
split.
  have f_q' :
      cost (@gantry_n_q) gantry_forward_kinematics (@lift rat)
        [seq lift a | a <- [:: 1; 2]] (gantry_cast gantry2)
        "base"%string "tool"%string origin_pose = Some F.
    by rewrite (lift_seqE [:: 1; 2]); exact: f_q.
  have size_q : size [seq lift a | a <- [:: 1; 2 : rat]]
                 = gantry_n_q (gantry_cast gantry2) by [].
  move: f_q'.
  rewrite (costE (n_q := @gantry_n_q) gantry_forward_kinematics
             (@lift rat) "base"%string "tool"%string origin_pose size_q).
  case=> <-; rewrite mxE.
  rewrite (val_cost_value _ origin_pose 2 [:: 1; 2]).
  rewrite (gantry_forward_kinematics_val gantry2 [:: 1; 2]).
  rewrite (gantry_cost_value _ _ (erefl : id 0 = 0 :> rat)
             (erefl : id 1 = 1 :> rat)
             (erefl : gantry_has_link gantry2 "base"%string)
             (erefl : gantry_has_link gantry2 "tool"%string)).
  apply: f_equal; rewrite [gantry_offset _]/= !big_cons big_nil.
  rewrite !big_ord_recl big_ord0 /=.
  exact: gantry2_value.
exists jac'; first exact: fill.
have total : 0 + \sum_(a <- [:: 1; 2]) a = 3%:R :> rat.
  by rewrite !big_cons big_nil; ring.
have column i : (i < 2)%N ->
    coeff jac' 0 i = 2%:R * 3%:R + 2%:R * 10%:R ^- 6 * nth 0 [:: 1; 2] i.
  move=> lt_i; have [Fi f_i ->] := written i lt_i.
  have f_i' :
      cost (@gantry_n_q) gantry_forward_kinematics (@lift rat)
        (seed i [seq lift a | a <- [:: 1; 2]]) (gantry_cast gantry2)
        "base"%string "tool"%string origin_pose = Some Fi.
    by rewrite (seedE (x := [:: 1; 2]) lt_i); exact: f_i.
  have size_i : size (seed i [seq lift a | a <- [:: 1; 2 : rat]])
                 = gantry_n_q (gantry_cast gantry2) by rewrite size_seed.
  move: f_i'.
  rewrite (costE (n_q := @gantry_n_q) gantry_forward_kinematics
             (@lift rat) "base"%string "tool"%string origin_pose size_i).
  case=> <-; rewrite mxE -total.
  exact: (gantry_grad_cost_value (m := gantry2) (x := [:: 1; 2])
            (source := "base"%string) (target := "tool"%string)
            lt_i erefl erefl).
split; [exact: rows | exact: cols | exact: (column 0%N) | exact: (column 1%N)].
Defined.

(** C3 on the two-joint gantry, whose dual model is the cast of the real
    one: [GetCost] is the plain evaluation on the real model. *)
Lemma GetCost_value_of_dual_cost_witness :
  exists2 real_val : 'M[rat]_(1, 1),
    cost (@gantry_n_q) gantry_forward_kinematics id [:: 1; 2] gantry2
      "base"%string "tool"%string origin_pose = Some real_val
    & GetCost (@gantry_n_q) gantry_forward_kinematics gantry2_cost
        [:: gantry2_variables] = Some (real_val 0 0).
Proof.
have [_ real] :=
  GetCost_value_of_dual_cost (n_q := @gantry_n_q)
    gantry_forward_kinematics (c := gantry2_cost)
    (vars := [:: gantry2_variables]) erefl erefl.
apply: (real gantry2 erefl).
rewrite /gantry_forward_kinematics /Transform_val /=; congr mkTransform.
  by apply/matrixP => i j; rewrite !mxE; case: (i == j).
apply/matrixP => i j; rewrite !mxE; case: ifP => // _.
by rewrite !big_cons !big_nil.
Defined.

(** C7 on the two-joint gantry. *)
Lemma SetVariables_GetValues_witness :
  GetValues (SetVariables gantry2_variables [:: 3; 4]) = [:: 3; 4].
Proof.
exact: (SetVariables_GetValues (v := gantry2_variables)
          (erefl : size [:: 3; 4 : rat] = GetRows gantry2_variables)).
Defined.

(** C10, as the code has it, at the values [(3, 4)] of a variable set
    named "var_set1" and a block of one row and two columns. *)
Lemma IKConstraint_components_read_witness :
  let vars := [:: mkIKVariables 2 "var_set1"%string [:: 3; 4 : rat]] in
  let c := IKConstraint_new "constraint1"%string in
  IKConstraint_GetValues c vars = Some [:: 3 ^+ 2 + 4]
  /\ exists2 jac_block',
       IKConstraint_FillJacobianBlock c vars "var_set1"%string
         (mkSparse 1 2 [::]) = Some jac_block'
       & coeff jac_block' 0 0 = 2%:R * 3 /\ coeff jac_block' 0 1 = 1.
Proof.
exact: (IKConstraint_components_read "constraint1"%string
          (vars := [:: mkIKVariables 2 "var_set1"%string [:: 3; 4 : rat]])
          (mkSparse 1 2 [::]) erefl).
Defined.

(** C10, as first stated: with the single value [3] in "var_set1" and a
    block of one row and two columns, [GetValues] runs out of bounds but
    [FillJacobianBlock] does not: it reads [x(0)] only, and writes [2 * 3]
    and [1]. *)
Lemma IKConstraint_one_component_fills :
  let vars := [:: mkIKVariables 1 "var_set1"%string [:: 3 : rat]] in
  let c := IKConstraint_new "constraint1"%string in
  [/\ (size [:: 3 : rat] < 2)%N,
      IKConstraint_GetValues c vars = None
    & exists2 jac_block',
        IKConstraint_FillJacobianBlock c vars "var_set1"%string
          (mkSparse 1 2 [::]) = Some jac_block'
        & coeff jac_block' 0 0 = 2%:R * 3 /\ coeff jac_block' 0 1 = 1].
Proof.
move=> vars c; split=> //.
have [jac_block' fill [_ _ c00 c01 _]] :=
  IKConstraint_FillJacobianBlockE c (vars := vars)
    (jac_block := mkSparse 1 2 [::]) erefl erefl erefl erefl.
by exists jac_block'.
Qed.

(** C3, as first stated, on a gantry without joints: the variable set is
    built from a real model with no offset, the cost term holds a dual
    model with offset one.  [GetCost] follows the dual model: it returns
    1, where the cost on the real model is 0. *)
Lemma GetCost_follows_dual_model :
  let real_model := mkGantry 0 gantry_links2 (0 : rat) in
  let dual_model := mkGantry 0 gantry_links2 (lift 1 : dual rat) in
  let vars :=
    [:: IKVariables_new (@gantry_n_q) "configuration_vector"%string
          real_model [::]] in
  let c :=
    IKCost_new "IK_cost"%string dual_model "base"%string "tool"%string
      origin_pose in
  GetCost (@gantry_n_q) gantry_forward_kinematics c vars = Some 1
  /\ cost (@gantry_n_q) gantry_forward_kinematics id [::] real_model
       "base"%string "tool"%string origin_pose
     = Some (const_mx 0).
Proof.
move=> real_model dual_model vars c; split.
  rewrite (GetCostE (n_q := @gantry_n_q) gantry_forward_kinematics
             (c := c) (vars := vars) erefl erefl).
  by rewrite gantry_cost_value // big_nil big_ord0 !addr0 expr2.
rewrite costE // gantry_cost_value //.
by rewrite big_nil big_ord0 !addr0 expr2 mulr0.
Qed.



(** C5, as first stated, on the two-joint gantry: a vector of one entry
    and a vector of three entries are both stored as they are. *)
Lemma IKVariables_wrong_length_stored :
  let v :=
    IKVariables_new (@gantry_n_q) "configuration_vector"%string gantry2
      [:: 7] in
  [/\ size [:: 7 : rat] != gantry_n_q gantry2,
      GetValues v = [:: 7],
      GetRows v = 2%N
    & GetValues (SetVariables v [:: 1; 2; 3]) = [:: 1; 2; 3]].
Proof. by []. Qed.

(** C9, as first stated: on the gantry no call of the driver reaches the
    solver with other settings than the three defaults. *)
Lemma inverse_kinematics_settings_not_overridable :
  ~ exists (m : Gantry rat) (source target : string)
      (desired : Transform rat) (q0 : seq rat),
      ~ default_settings
          (inverse_kinematics_setup (@gantry_n_q) gantry_cast m source
             target desired q0).1.
Proof. by case=> m [source [target [desired [q0]]]]; apply. Qed.

(** The cost on the two-joint gantry at [(1, 2)] is not negative. *)
Lemma cost_nonnegative_witness :
  exists2 cost_val : 'M[rat]_(1, 1),
    cost (@gantry_n_q) gantry_forward_kinematics id [:: 1; 2] gantry2
      "base"%string "tool"%string origin_pose = Some cost_val
    & 0 <= cost_val 0 0.
Proof.
exact: (cost_nonnegative (n_q := @gantry_n_q) gantry_forward_kinematics
          "base"%string "tool"%string origin_pose
          (erefl : size [:: 1; 2 : rat] = gantry_n_q gantry2)).
Defined.

(** Asked about "var_set1", the cost term of the gantry leaves the block
    alone. *)
Lemma FillJacobianBlock_other_name_witness :
  FillJacobianBlock (@gantry_n_q) gantry_forward_kinematics gantry2_cost
    [:: gantry2_variables] "var_set1"%string (mkSparse 1 2 [::])
  = Some (mkSparse 1 2 [::]).
Proof.
exact: (FillJacobianBlock_other_name (@gantry_n_q)
          gantry_forward_kinematics gantry2_cost [:: gantry2_variables]
          (mkSparse 1 2 [::]) (var_set := "var_set1"%string) erefl).
Defined.

(** The gradient on the two-joint gantry at [(1, 2)]. *)
Lemma gantry_jacobian_is_gradient_witness :
  exists2 jac',
    FillJacobianBlock (@gantry_n_q) gantry_forward_kinematics gantry2_cost
      [:: gantry2_variables] "configuration_vector"%string
      (mkSparse 0 0 [::])
    = Some jac'
    & coeff jac' 0 0 = 2%:R * (0 + \sum_(a <- [:: 1; 2]) a)
                       + 2%:R * 10%:R ^- 6 * 1
      /\ coeff jac' 0 1 = 2%:R * (0 + \sum_(a <- [:: 1; 2]) a)
                          + 2%:R * 10%:R ^- 6 * 2.
Proof.
have [jac' fill grad] :=
  gantry_jacobian_is_gradient (m := gantry2) (x := [:: 1; 2])
    (source := "base"%string) (target := "tool"%string)
    (mkSparse 0 0 [::]) erefl erefl erefl.
by exists jac'; [exact: fill | split; [exact: (grad 0%N) | exact: (grad 1%N)]].
Defined.

(** ** Further properties on the gantry *)

(** At the zero configuration the two-joint gantry is at the origin pose:
    the cost is zero there, and only there. *)
Lemma cost_zero_iff_witness :
  exists2 cost_val : 'M[rat]_(1, 1),
    cost (@gantry_n_q) gantry_forward_kinematics id [:: 0; 0] gantry2
      "base"%string "tool"%string origin_pose = Some cost_val
    & cost_val 0 0 = 0
      <-> gantry_forward_kinematics gantry2 [:: 0; 0] "base"%string
            "tool"%string = origin_pose
          /\ [:: 0; 0] = nseq (gantry_n_q gantry2) (0 : rat).
Proof.
exact: (cost_zero_iff (n_q := @gantry_n_q)
          (forward_kinematics := gantry_forward_kinematics)
          (source := "base"%string) (target := "tool"%string)
          (erefl : size [:: 0; 0 : rat] = gantry_n_q gantry2)
          (is_rotation1 : is_rotation (linear origin_pose))
          is_rotation1).
Defined.

(** The lower bound on the two-joint gantry at [(1, 2)]. *)
Lemma cost_regularization_bound_witness :
  exists2 cost_val : 'M[rat]_(1, 1),
    cost (@gantry_n_q) gantry_forward_kinematics id [:: 1; 2] gantry2
      "base"%string "tool"%string origin_pose = Some cost_val
    & 10%:R ^- 6 * \sum_(a <- [:: 1; 2]) a ^+ 2 <= cost_val 0 0.
Proof.
exact: (cost_regularization_bound (n_q := @gantry_n_q)
          gantry_forward_kinematics "base"%string "tool"%string origin_pose
          (erefl : size [:: 1; 2 : rat] = gantry_n_q gantry2)).
Defined.

(** The terms of the gradient on the two-joint gantry at [(1, 2)]. *)
Lemma FillJacobianBlock_gradient_terms_witness :
  let q_auto := [seq lift x | x <- [:: 1; 2 : rat]] in
  exists2 jac',
    FillJacobianBlock (@gantry_n_q) gantry_forward_kinematics gantry2_cost
      [:: gantry2_variables] "configuration_vector"%string
      (mkSparse 0 0 [::])
    = Some jac'
    & forall i, (i < 2)%N ->
        let H := gantry_forward_kinematics (gantry_cast gantry2)
                   (seed i q_auto) "base"%string "tool"%string in
        let e := orientation_error
                   (map_mx (@lift rat) (linear origin_pose)) (linear H) in
        coeff jac' 0 i
        = 2%:R * \sum_(j < 3) (dual_val (translation H j 0)
                               - translation origin_pose j 0)
                              * dual_grad (translation H j 0)
          + 2%:R * 10%:R ^- 6 * nth 0 [:: 1; 2] i
          + 100%:R * dual_val e * dual_grad e.
Proof.
exact: (FillJacobianBlock_gradient_terms (n_q := @gantry_n_q)
          gantry_forward_kinematics (c := gantry2_cost)
          (vars := [:: gantry2_variables]) (mkSparse 0 0 [::]) erefl erefl).
Defined.

(** The two-joint gantry at [(1, -1)] has its target link at the origin:
    the gradient there is [2 * 1e-6 * (1, -1)]. *)
Lemma FillJacobianBlock_at_target_witness :
  let vars :=
    [:: IKVariables_new (@gantry_n_q) "configuration_vector"%string gantry2
          [:: 1; -1]] in
  exists2 jac',
    FillJacobianBlock (@gantry_n_q) gantry_forward_kinematics gantry2_cost
      vars "configuration_vector"%string (mkSparse 0 0 [::])
    = Some jac'
    & coeff jac' 0 0 = 2%:R * 10%:R ^- 6 * 1
      /\ coeff jac' 0 1 = 2%:R * 10%:R ^- 6 * -1.
Proof.
move=> vars.
have at_target i : (i < gantry_n_q (model gantry2_cost))%N ->
    Transform_val
      (gantry_forward_kinematics (model gantry2_cost)
         (seed i [seq lift x | x <- [:: 1; -1 : rat]])
         (source_link_name gantry2_cost) (target_link_name gantry2_cost))
    = desired_pose gantry2_cost.
  move=> lt_i; rewrite /gantry_forward_kinematics /Transform_val /=.
  congr mkTransform.
    by apply/matrixP => j k; rewrite !mxE; case: (j == k).
  apply/matrixP => j k; rewrite !mxE; case: ifP => // _.
  case: i lt_i => [|[|i]] // _; rewrite /seed /= !big_cons !big_nil.
    rewrite add0r 2!val_add dual_val_lift.
    by rewrite [dual_val 0]/(0 : rat) addr0 [dual_val _]/(1 : rat) subrr.
  rewrite add0r 2!val_add dual_val_lift.
  by rewrite [dual_val 0]/(0 : rat) addr0 [dual_val _]/(-1 : rat) subrr.
have [jac' fill written] :=
  FillJacobianBlock_at_target (n_q := @gantry_n_q)
    (forward_kinematics := gantry_forward_kinematics) (c := gantry2_cost)
    (vars := vars) (mkSparse 0 0 [::]) erefl erefl
    (is_rotation1 : is_rotation (linear (desired_pose gantry2_cost)))
    at_target.
exists jac'; first exact: fill.
by split; [exact: (written 0%N) | exact: (written 1%N)].
Defined.

(** The orientation error between the identity and the half turn about z
    is 4, the upper end of the range. *)
Lemma orientation_error_range_witness :
  0 <= orientation_error (1%:M : 'M[rat]_3) half_turn_z <= 4%:R.
Proof.
exact: (orientation_error_range is_rotation1 is_rotation_half_turn_z).
Defined.

(** The block of the example constraint at the values [(3, 4)]: a block
    of two rows and three columns keeps its size. *)
Lemma IKConstraint_FillJacobianBlock_frame_witness :
  let vars := [:: mkIKVariables 2 "var_set1"%string [:: 3; 4 : rat]] in
  exists2 jac_block',
    IKConstraint_FillJacobianBlock IKConstraint_default
      vars "var_set1"%string (mkSparse 2 3 [::])
    = Some jac_block'
    & [/\ sp_rows jac_block' = 2%N, sp_cols jac_block' = 3%N,
          coeff jac_block' 0 0 = 2%:R * 3, coeff jac_block' 0 1 = 1
        & forall r k, ~~ ((r == 0%N) && (k < 2)%N) ->
            coeff jac_block' r k = coeff (mkSparse 2 3 [::]) r k].
Proof.
exact: (IKConstraint_FillJacobianBlock_frame IKConstraint_default
          (vars := [:: mkIKVariables 2 "var_set1"%string [:: 3; 4 : rat]])
          (jac_block := mkSparse 2 3 [::]) erefl erefl erefl erefl).
Defined.

(** From the values [(3, 4)] to [(3 + 1, 4 + 2)]. *)
Lemma IKConstraint_jacobian_linearizes_witness :
  let c := IKConstraint_new "constraint1"%string in
  let vars := [:: mkIKVariables 2 "var_set1"%string [:: 3; 4 : rat]] in
  let vars' :=
    [:: mkIKVariables 2 "var_set1"%string [:: 3 + 1; 4 + 2 : rat]] in
  exists g g' jac_block',
    [/\ IKConstraint_GetValues c vars = Some [:: g],
        IKConstraint_GetValues c vars' = Some [:: g'],
        IKConstraint_FillJacobianBlock c vars "var_set1"%string
          (mkSparse 1 2 [::])
        = Some jac_block'
      & g' = g + coeff jac_block' 0 0 * 1 + coeff jac_block' 0 1 * 2
             + 1 ^+ 2].
Proof.
exact: (IKConstraint_jacobian_linearizes "constraint1"%string
          (vars := [:: mkIKVariables 2 "var_set1"%string [:: 3; 4 : rat]])
          (vars' :=
             [:: mkIKVariables 2 "var_set1"%string [:: 3 + 1; 4 + 2 : rat]])
          (jac_block := mkSparse 1 2 [::])
          erefl erefl erefl erefl erefl erefl).
Defined.

